(** * package-exports: the export-map resolver of [lib/index.js]

    A shallow embedding of [packageExports] and the functions it calls:
    the recursive walk over the [exports] value ([resolveExports],
    [resolveExportsList], [resolveExportsObject], [resolveExportsConditions],
    [resolveExportsSpecifiers], [addValue], [addDynamic], [addResolved],
    [checkExists], [findWildcardReplacements]), the legacy [main] fallback,
    the negation pass, the npm-ignored pass and the final sort.

    Modelling choices:
    - the mutable [state] object of the source is threaded through an
      explicit state/option monad [M]; [None] is a rejected promise (a failed
      [assert]);
    - the walk creates every task synchronously and in order, and every entry
      is pushed synchronously; only [fs.access] suspends, and the passes that
      read [exists] run after the join.  So the model runs the tasks in
      creation order and pushes each entry with the final value of [exists];
      only the order of the diagnostics can differ from the source, and the
      source sorts them by position afterwards anyway;
    - the external collaborators are parameters: [packagedFiles] (the result
      of [npm-packlist], already mapped through [pathToPosixPath]),
      [on_disk] (whether [fs.access] succeeds on the URL of a file path),
      [minimatch_match] ([new Minimatch(pattern, ...).match(path)]) and
      [locale_compare] ([String.prototype.localeCompare]);
    - a JSON object is the list of its fields in [Object.keys] order, each
      key once. *)

From Stdlib Require Import List String Ascii Bool Arith ZArith Lia Sorting.Sorted Sorting.Permutation.
Import ListNotations.
Open Scope string_scope.
Set Warnings "-register-all".

(** ** Strings, as the JavaScript built-ins used by the source *)

Definition startsWith (s p : string) : bool := String.prefix p s.

Definition endsWith (s suffix : string) : bool :=
  let n := String.length s in
  let m := String.length suffix in
  (m <=? n)%nat && String.eqb (substring (n - m) m s) suffix.

(** [s.indexOf(sub, from)]; [None] is [-1]. *)
Definition indexOf (s sub : string) (from : nat) : option nat :=
  String.index from sub s.

(** [s.slice(b, e)] and [s.slice(b)], for [b <= e]. *)
Definition slice (s : string) (b e : nat) : string := substring b (e - b) s.
Definition sliceFrom (s : string) (b : nat) : string :=
  substring b (String.length s - b) s.

(** [s.split(c)] for a one-character separator. *)
Fixpoint split (sep : ascii) (s : string) : list string :=
  match s with
  | EmptyString => [EmptyString]
  | String c rest =>
      let pieces := split sep rest in
      if Ascii.eqb c sep then EmptyString :: pieces
      else match pieces with
           | first :: others => String c first :: others
           | [] => [String c EmptyString]
           end
  end.

(** [parts.join(sep)]. *)
Definition join (sep : string) (parts : list string) : string :=
  String.concat sep parts.

(** [list.includes(x)] on an array of strings. *)
Definition includes (l : list string) (x : string) : bool :=
  existsb (String.eqb x) l.

(** [parts.pop()]: the array without its last item, and that item. *)
Definition pop (parts : list string) : list string * option string :=
  (removelast parts, last (map Some parts) None).

(** [s.includes(c)] for a one-character string [c]. *)
Definition includes_char (s c : string) : bool :=
  match indexOf s c 0 with Some _ => true | None => false end.

(** [object[key]] on the fields of a JSON object. *)
Fixpoint lookup_field {A : Type} (key : string) (fields : list (string * A)) : option A :=
  match fields with
  | [] => None
  | (k, v) :: rest => if String.eqb k key then Some v else lookup_field key rest
  end.

(** [s.replace('j', 't')]: the first [j] becomes [t]. *)
Fixpoint replaceFirst (from to : ascii) (s : string) : string :=
  match s with
  | EmptyString => EmptyString
  | String c rest =>
      if Ascii.eqb c from then String to rest
      else String c (replaceFirst from to rest)
  end.

(** ** Data model *)

(** A parsed JSON value; the fields of an object are in [Object.keys] order. *)
Inductive json : Type :=
| JNull
| JBool (b : bool)
| JNumber (n : Z)
| JString (s : string)
| JArray (items : list json)
| JObject (fields : list (string * json)).

(** A segment of a JSON path: [number | string]. *)
Inductive segment : Type :=
| SIndex (n : nat)
| SKey (k : string).

(** [Info]. *)
Record Info : Type := mkInfo {
  i_conditions : option (list string);
  i_path : list segment;
  i_pathOrder : list nat;
  i_specifier : option string
}.

(** [RawExport]; the [url] field is [new URL(filePath, packageUrl)] and is
    left out: nothing reads it but [checkExists], whose result is [on_disk]. *)
Record RawExport : Type := mkRawExport {
  conditions : option (list string);
  exists_ : bool;
  filePath : string;
  globbed : bool;
  jsonPath : list segment;
  jsonPathOrder : list nat;
  specifier : string
}.

(** [NegatedExport]. *)
Record NegatedExport : Type := mkNegatedExport {
  n_conditions : option (list string);
  n_jsonPath : list segment;
  n_jsonPathOrder : list nat;
  n_specifier : string
}.

(** A diagnostic: its [ruleId], the JSON path it is anchored at, and the
    values interpolated into its reason. *)
Record message : Type := mkMessage {
  ruleId : string;
  place : list segment;
  args : list string
}.

(** The mutable part of [State]. *)
Record State : Type := mkState {
  exports : list RawExport;
  negatedExports : list NegatedExport;
  messages : list message
}.

(** [MutuallyExclusiveInfo] and the table [mutuallyExclusiveConditions]. *)
Record MutuallyExclusiveInfo : Type := mkExclusive {
  me_conditions : list string;
  exhaustive : bool
}.

Definition mutuallyExclusiveConditions : list MutuallyExclusiveInfo :=
  [ mkExclusive ["development"; "production"] false;
    mkExclusive ["import"; "require"] true;
    mkExclusive ["node"; "node-addons"] false;
    mkExclusive ["browser"; "edge-routine"; "workerd"; "deno"; "lagon";
                 "react-native"; "moddable"; "netlify"; "electron"; "node";
                 "bun"; "react-server"; "edge-light"; "fastly"] false ].

(** ** The state monad *)

Definition M : Type := State -> option State.

Definition skip : M := Some.

(** A failed [assert]: the promise of [packageExports] rejects. *)
Definition throw : M := fun _ => None.

Definition andThen (a b : M) : M :=
  fun st => match a st with Some st' => b st' | None => None end.

Notation "a ;; b" := (andThen a b) (at level 61, right associativity).

Definition when (b : bool) (a : M) : M := if b then a else skip.

(** [await Promise.all(tasks)], the tasks taken in creation order. *)
Fixpoint all (tasks : list M) : M :=
  match tasks with
  | [] => skip
  | task :: rest => task ;; all rest
  end.

(** [message(state, reason, {ruleId}, jsonPath)]. *)
Definition message_ (rule : string) (path : list segment) (values : list string) : M :=
  fun st => Some (mkState (exports st) (negatedExports st)
                          (messages st ++ [mkMessage rule path values])).

Definition pushExport (e : RawExport) : M :=
  fun st => Some (mkState (exports st ++ [e]) (negatedExports st) (messages st)).

Definition pushNegated (n : NegatedExport) : M :=
  fun st => Some (mkState (exports st) (negatedExports st ++ [n]) (messages st)).

(** ** The walk *)

Section Resolver.

(** The collaborators of the walk. *)
Variable packagedFiles : list string.
Variable on_disk : string -> bool.
Variable minimatch_match : string -> string -> bool.
Variable locale_compare : string -> string -> Z.

Definition withExists (b : bool) (e : RawExport) : RawExport :=
  mkRawExport (conditions e) b (filePath e) (globbed e) (jsonPath e)
              (jsonPathOrder e) (specifier e).

(** [checkExists]: [fs.access] fails exactly when [on_disk] is false. *)
Definition checkExists (export_ : RawExport) : M :=
  if on_disk (filePath export_) then skip
  else message_ "exports-path-not-found" (jsonPath export_)
                [filePath export_; specifier export_].

(** [addResolved]; [value = None] is [null].  The source pushes [export_]
    with [exists: false] and then sets [exists]; the pushed record holds the
    final value. *)
Definition addResolved (info : Info) (definitelyExists explicitlyDefined : bool)
    (specifier : string) (value : option string) : M :=
  match value with
  | None =>
      pushNegated (mkNegatedExport (i_conditions info) (i_path info)
                                   (i_pathOrder info) specifier)
  | Some v =>
      let export_ := mkRawExport (i_conditions info) false v
                       (negb explicitlyDefined) (i_path info)
                       (i_pathOrder info) specifier in
      let known := definitelyExists || includes packagedFiles v in
      pushExport (withExists (known || on_disk v) export_) ;;
      (if known then skip else checkExists export_)
  end.

(** The [while (maybeEnd !== -1)] loop of [findWildcardReplacements]:
    every [maybeEnd] is a later occurrence of [second], so [length + 1]
    rounds are enough. *)
Fixpoint scanEnds (fuel : nat) (filePath second : string) (start : nat)
    (maybeEnd : option nat) : list string :=
  match fuel, maybeEnd with
  | S fuel', Some e =>
      slice filePath start e
        :: scanEnds fuel' filePath second start (indexOf filePath second (e + 1))
  | _, _ => []
  end.

(** One round of the [for (const filePath of filePaths)] loop: [None] is a
    failed [assert], [Some None] pushes nothing. *)
Definition replacementFor (parts : list string) (filePath : string)
    : option (option string) :=
  match parts with
  | first :: second :: _ =>
      if startsWith filePath first then
        let start := String.length first in
        let options :=
          ((if String.eqb second "" then []
           else scanEnds (S (String.length filePath)) filePath second start
                         (indexOf filePath second start))
          ++ [sliceFrom filePath start])%list in
        Some (find (fun option => String.eqb (join option parts) filePath) options)
      else None
  | _ => None
  end.

Fixpoint findWildcardReplacements (parts filePaths : list string)
    : option (list string) :=
  match filePaths with
  | [] => Some []
  | filePath :: rest =>
      match replacementFor parts filePath, findWildcardReplacements parts rest with
      | Some found, Some results =>
          Some (match found with Some r => r :: results | None => results end)
      | _, _ => None
      end
  end.

(** [addDynamic]; [before] and [after] are [specifier[0]], [specifier[1]]. *)
Definition addDynamic (info : Info) (before after : string)
    (valueParts : list string) : M :=
  let results := filter (minimatch_match (join "**/*" valueParts)) packagedFiles in
  match results with
  | [] => message_ "exports-path-wildcard-not-found" (i_path info)
                   [join "*" valueParts]
  | _ =>
      match findWildcardReplacements valueParts results with
      | None => throw
      | Some replacements =>
          all (map (fun replacement =>
                      addResolved info true false
                        (before ++ replacement ++ after)
                        (Some (join replacement valueParts)))
                   replacements)
      end
  end.

(** [info.specifier || '.']. *)
Definition specifierOrDot (s : option string) : string :=
  match s with
  | Some x => if String.eqb x "" then "." else x
  | None => "."
  end.

(** Whether [info.specifier] is truthy. *)
Definition truthy (s : option string) : bool :=
  match s with
  | Some x => negb (String.eqb x "")
  | None => false
  end.

(** [addValue]; [leaf] is the part after the two early returns, for a
    string value ([Some]) or [null] ([None]). *)
Definition addValue (info : Info) (exportsValue : json) : M :=
  let leaf (value : option string) : M :=
    let specifier := specifierOrDot (i_specifier info) in
    match indexOf specifier "*" 0, value with
    | None, _ | _, None =>
        addResolved info false true specifier value
    | Some specifierAsterisk, Some s =>
        match indexOf specifier "*" (specifierAsterisk + 1) with
        | Some _ =>
            message_ "exports-specifier-wildcard-invalid" (i_path info)
                     [specifier]
        | None =>
            match indexOf s "*" 0 with
            | None =>
                message_ "exports-specifier-wildcard-useless" (i_path info)
                         [specifier; s] ;;
                addResolved info false true specifier value
            | Some _ =>
                addDynamic info (slice specifier 0 specifierAsterisk)
                           (sliceFrom specifier (specifierAsterisk + 1))
                           (split "*" s)
            end
        end
    end in
  match exportsValue with
  | JNull => leaf None
  | JString s =>
      if startsWith s "./" then leaf (Some s)
      else message_ "exports-path-unprefixed" (i_path info) [s]
  | _ => message_ "exports-value-invalid" (i_path info) []
  end.

(** The [Info] of a child: [path] and [pathOrder] extended by one step. *)
Definition childInfo (info : Info) (conditions : option (list string))
    (step : segment) (index : nat) (specifier : option string) : Info :=
  mkInfo conditions (i_path info ++ [step]) (i_pathOrder info ++ [index]) specifier.

(** [resolveExportsList]; [resolveExports] is the caller. *)
Definition resolveExportsList (resolveExports : Info -> json -> M)
    (info : Info) (exportsValue : list json) : M :=
  match exportsValue with
  | [] => message_ "exports-alternatives-empty" (i_path info) []
  | first :: _ =>
      message_ "exports-alternatives" (i_path info) [] ;;
      resolveExports (childInfo info (i_conditions info) (SIndex 0) 0
                                (i_specifier info)) first
  end.

(** One round of the [for (const key of keys)] loop of
    [resolveExportsObject], on [dots] and [mixed]. *)
Definition dotsStep (acc : option bool * bool) (key : string) : option bool * bool :=
  let '(dots, mixed) := acc in
  let dot := startsWith key "." in
  match dots with
  | None => (Some dot, mixed)
  | Some d => if Bool.eqb d dot then (dots, mixed) else (dots, true)
  end.

(** The loop: the final [dots] and [mixed]. *)
Definition dotsMixed (keys : list string) : option bool * bool :=
  fold_left dotsStep keys (None, false).

(** The mutual-exclusivity check of one key of a conditions object. *)
Definition checkExclusive (info : Info) (condition : string) : M :=
  all (map (fun exclusive =>
              match i_conditions info with
              | None => skip
              | Some active =>
                  if includes (me_conditions exclusive) condition then
                    match find (includes (me_conditions exclusive)) active with
                    | Some other =>
                        message_ "exports-conditions-mutually-exclusive"
                                 (i_path info ++ [SKey condition])
                                 [condition; other]
                    | None => skip
                    end
                  else skip
              end)
           mutuallyExclusiveConditions).

(** The [types] check: [(.+).js] to [$1.d.ts] and the like. *)
Definition checkTypes (info : Info) (exportsValue : list (string * json)) : M :=
  let keys := map fst exportsValue in
  if includes keys "default" && includes keys "types" then
    match lookup_field "default" exportsValue, lookup_field "types" exportsValue with
    | Some (JString default_), Some (JString types) =>
        let '(parts, extname) := pop (split "." default_) in
        match extname with
        | Some ext =>
            if (String.eqb ext "js" || String.eqb ext "cjs" || String.eqb ext "mjs")
               && String.eqb types
                    (join "." (parts ++ ["d"; replaceFirst "j" "t" ext])%list)
            then message_ "exports-types-verbose" (i_path info ++ [SKey "types"]) []
            else skip
        | None => skip
        end
    | _, _ => skip
    end
  else skip.

(** The [for (const condition of keys)] loop of [resolveExportsConditions]. *)
Fixpoint conditionsLoop (resolveExports : Info -> json -> M) (info : Info)
    (fields : list (string * json)) (index : nat) : M :=
  match fields with
  | [] => skip
  | (condition, value) :: rest =>
      checkExclusive info condition ;;
      resolveExports
        (childInfo info
           (match i_conditions info with
            | Some active => Some (active ++ [condition])%list
            | None => Some [condition]
            end)
           (SKey condition) index (i_specifier info))
        value ;;
      conditionsLoop resolveExports info rest (S index)
  end.

(** The end of [resolveExportsConditions]: [assert(last)], then the checks
    on [default] ([hasDefault] is whether a key is [default], [last] the
    last key). *)
Definition conditionsDefault (info : Info) (keys : list string) : M :=
  match last (map Some keys) None with
  | None => throw
  | Some last_ =>
      if String.eqb last_ "" then throw
      else
        let hasDefault := includes keys "default" in
        let exhaustive_ :=
          existsb (fun exclusive =>
                     exhaustive exclusive
                     && forallb (includes keys) (me_conditions exclusive))
                  mutuallyExclusiveConditions in
        if hasDefault then
          when (negb (String.eqb last_ "default"))
               (message_ "exports-conditions-default-misplaced"
                         (i_path info ++ [SKey last_]) [])
        else if exhaustive_ then skip
        else message_ "exports-conditions-default-missing" (i_path info)
                      [specifierOrDot (i_specifier info)]
  end.

(** [resolveExportsConditions]. *)
Definition resolveExportsConditions (resolveExports : Info -> json -> M)
    (info : Info) (exportsValue : list (string * json)) : M :=
  let keys := map fst exportsValue in
  when (match keys with ["default"] => true | _ => false end)
       (message_ "exports-conditions-verbose" (i_path info) []) ;;
  checkTypes info exportsValue ;;
  conditionsLoop resolveExports info exportsValue 0 ;;
  conditionsDefault info keys.

(** The [for (const specifier of keys)] loop of [resolveExportsSpecifiers];
    [keys] are all the keys of the object. *)
Fixpoint specifiersLoop (resolveExports : Info -> json -> M) (info : Info)
    (keys : list string) (fields : list (string * json)) (index : nat) : M :=
  match fields with
  | [] => skip
  | (specifier, value) :: rest =>
      let '(parts, extension) := pop (split "." specifier) in
      match extension with
      | Some ext =>
          when (negb (String.eqb ext "") && negb (includes_char ext "/"))
               (message_ "exports-specifier-extension" (i_path info)
                         [ext; specifier; join "." parts;
                          if includes keys (join "." parts) then "remove" else "rename"])
      | None => skip
      end ;;
      resolveExports
        (childInfo info (i_conditions info) (SKey specifier) index
                   (Some specifier))
        value ;;
      specifiersLoop resolveExports info keys rest (S index)
  end.

(** [resolveExportsSpecifiers]. *)
Definition resolveExportsSpecifiers (resolveExports : Info -> json -> M)
    (info : Info) (exportsValue : list (string * json)) : M :=
  let keys := map fst exportsValue in
  when (match keys with ["."] => true | _ => false end)
       (message_ "exports-specifiers-verbose" (i_path info) []) ;;
  specifiersLoop resolveExports info (map fst exportsValue) exportsValue 0.

(** [resolveExportsObject]. *)
Definition resolveExportsObject (resolveExports : Info -> json -> M)
    (info : Info) (exportsValue : list (string * json)) : M :=
  let keys := map fst exportsValue in
  match dotsMixed keys with
  | (None, _) => message_ "exports-object-empty" (i_path info) []
  | (Some _, true) => message_ "exports-object-mixed" (i_path info) []
  | (Some dots, false) =>
      if dots && truthy (i_specifier info) then
        message_ "exports-specifier-nested" (i_path info) keys
      else if dots then resolveExportsSpecifiers resolveExports info exportsValue
      else resolveExportsConditions resolveExports info exportsValue
  end.

(** [resolveExports]. *)
Fixpoint resolveExports (info : Info) (exportsValue : json) {struct exportsValue} : M :=
  match exportsValue with
  | JArray items => resolveExportsList resolveExports info items
  | JObject fields => resolveExportsObject resolveExports info fields
  | _ => addValue info exportsValue
  end.

(** ** After the walk: negations, main specifier, npm-ignored files *)

(** [arrayEquivalent]. *)
Definition arrayEquivalent (left right : list string) : bool :=
  Nat.eqb (List.length left) (List.length right) && forallb (includes right) left.

(** The test of the [while] loop of the negation pass. *)
Definition negationMatches (negated : NegatedExport) (export_ : RawExport) : bool :=
  let asteriskIndex := indexOf (n_specifier negated) "*" 0 in
  let head := match asteriskIndex with
              | None => n_specifier negated
              | Some i => slice (n_specifier negated) 0 i
              end in
  let tail := match asteriskIndex with
              | None => None
              | Some i => Some (sliceFrom (n_specifier negated) (i + 1))
              end in
  match tail with
  | None => String.eqb (specifier export_) head
  | Some t => startsWith (specifier export_) head && endsWith (specifier export_) t
  end
  && match conditions export_, n_conditions negated with
     | Some a, Some b => arrayEquivalent a b
     | None, None => true
     | _, _ => false
     end.

(** The [while (++index < state.exports.length)] loop with its [splice]:
    the entries kept, and [found]. *)
Fixpoint spliceMatching (negated : NegatedExport) (entries : list RawExport)
    : list RawExport * bool :=
  match entries with
  | [] => ([], false)
  | export_ :: rest =>
      let '(kept, found) := spliceMatching negated rest in
      if negationMatches negated export_ then (kept, true)
      else (export_ :: kept, found)
  end.

(** One round of [for (const negated of state.negatedExports)]. *)
Definition removeNegated (negated : NegatedExport) : M :=
  fun st =>
    let '(kept, found) := spliceMatching negated (exports st) in
    let st' := mkState kept (negatedExports st) (messages st) in
    if found then Some st'
    else message_ "exports-negated-missing" (n_jsonPath negated)
                  [n_specifier negated] st'.

Definition negationPass : M :=
  fun st => all (map removeNegated (negatedExports st)) st.

(** The check for a main specifier [.]. *)
Definition mainSpecifierCheck : M :=
  fun st =>
    if existsb (fun d => String.eqb (specifier d) ".") (exports st) then Some st
    else message_ "exports-main-missing" [] [] st.

(** The [for (const export_ of state.exports)] loop of the npm-ignored
    check; [files] is whether [package.json] has a [files] field. *)
Definition npmIgnoredPass (files : bool) : M :=
  fun st =>
    all (map (fun export_ =>
                when (exists_ export_ && negb (includes packagedFiles (filePath export_)))
                     (message_ "npm-ignored" (jsonPath export_)
                               [filePath export_;
                                if files then "files" else ".npmignore"]))
             (exports st)) st.

(** ** Without an export map: [resolveMainExport], [resolvePackagedFiles] *)

Definition mainDefaults : list string := ["./index.js"; "./index.json"; "./index.node"].

Definition mainSuffixes : list string :=
  [".js"; ".json"; ".node"; "/index.js"; "/index.json"; "/index.node"].

(** The first part of [resolveMainExport]: the diagnostics, [warned] and
    [mainFound]. *)
Definition resolveMainField (main type_ : option json) : M * bool * option string :=
  match main with
  | None => (skip, false, None)
  | Some (JString m) =>
      let normal := if startsWith m "./" then m else "./" ++ m in
      if includes packagedFiles normal then
        (message_ "main" [SKey "main"] [normal], false, Some normal)
      else
        match find (includes packagedFiles)
                   (map (fun suffix => normal ++ suffix) mainSuffixes) with
        | Some found =>
            match type_ with
            | Some (JString "module") =>
                (message_ "main-resolve-module" [SKey "main"] [m; found], true, None)
            | _ =>
                (message_ "main-resolve-commonjs" [SKey "main"] [m; found], false,
                 Some found)
            end
        | None => (message_ "main-not-found" [SKey "main"] [m], true, None)
        end
  | Some _ => (message_ "main-invalid" [SKey "main"] [], true, None)
  end.

(** [resolveMainExport]. *)
Definition resolveMainExport (main type_ : option json) : M :=
  let '(diagnostics, warned, mainFound) := resolveMainField main type_ in
  diagnostics ;;
  match mainFound with
  | Some found =>
      addResolved (mkInfo None [SKey "main"] [0] None) true true "." (Some found)
  | None =>
      match find (includes packagedFiles) mainDefaults with
      | Some found =>
          message_ "main-inferred" [] [found] ;;
          addResolved (mkInfo None [] [] None) true false "." (Some found)
      | None => when (negb warned) (message_ "main-missing" [] [])
      end
  end.

(** [resolvePackagedFiles]. *)
Definition resolvePackagedFiles : M :=
  all (map (fun file => addResolved (mkInfo None [] [] (Some file)) true false
                                    file (Some file))
           packagedFiles).

(** [pathToPosixPath]; [sep] is [path.sep], one character. *)
Definition pathToPosixPath (sep : ascii) (value : string) : string :=
  "./" ++ join "/" (split sep value).

(** ** Ordering *)

(** The [while (++index < length)] loop of [compareExport]; a missing
    position reads as [0] ([left.jsonPathOrder[index] || 0]). *)
Fixpoint orderDifference (left right : list nat) (index remaining : nat) : Z :=
  match remaining with
  | 0 => 0
  | S remaining' =>
      let difference := (Z.of_nat (nth index left 0%nat) - Z.of_nat (nth index right 0%nat))%Z in
      if Z.eqb difference 0 then orderDifference left right (S index) remaining'
      else difference
  end.

(** [compareExport]. *)
Definition compareExport (left right : RawExport) : Z :=
  let length_ := Nat.max (List.length (jsonPathOrder left))
                         (List.length (jsonPathOrder right)) in
  let difference := orderDifference (jsonPathOrder left) (jsonPathOrder right) 0 length_ in
  if negb (Z.eqb difference 0) then difference
  else
    let segments := (Z.of_nat (List.length (split "/" (specifier left)))
                     - Z.of_nat (List.length (split "/" (specifier right))))%Z in
    if negb (Z.eqb segments 0) then segments
    else locale_compare (specifier left) (specifier right).

(** [state.exports.sort(compareExport)].  [Array.prototype.sort] is stable,
    and a stable sort by a consistent comparator has one result: the one of
    this insertion sort, which puts an item before the first later one that
    does not compare below it. *)
Fixpoint insertExport (x : RawExport) (sorted : list RawExport) : list RawExport :=
  match sorted with
  | [] => [x]
  | y :: rest =>
      if (compareExport x y <=? 0)%Z then x :: sorted else y :: insertExport x rest
  end.

Fixpoint sortExports (entries : list RawExport) : list RawExport :=
  match entries with
  | [] => []
  | x :: rest => insertExport x (sortExports rest)
  end.

Definition sortPass : M :=
  fun st => Some (mkState (sortExports (exports st)) (negatedExports st) (messages st)).

(** ** [packageExports] *)

(** The fields of [package.json] that [packageExports] reads; [pj_files]
    is ['files' in packageData], [None] is a missing field. *)
Record PackageJson : Type := mkPackageJson {
  pj_name : option json;
  pj_type : option json;
  pj_files : bool;
  pj_main : option json;
  pj_exports : option json
}.

(** A falsy JSON value. *)
Definition falsy (v : json) : bool :=
  match v with
  | JNull => true
  | JBool b => negb b
  | JNumber n => Z.eqb n 0
  | JString s => String.eqb s ""
  | _ => false
  end.

Definition rootInfo : Info := mkInfo None [SKey "exports"] [0] None.

(** The body of [packageExports] from the first diagnostic to the sort of
    the exports; it returns the final [state].  The diagnostics are kept in
    emission order: [file.messages.sort(compareMessage)] orders them by
    source position, which the model does not track. *)
Definition packageExportsState (pj : PackageJson) : option State :=
  let files := pj_files pj in
  (match pj_name pj with
   | Some (JString _) => skip
   | _ => message_ "name-missing" [] []
   end ;;
   match pj_type pj with
   | None => message_ "type-missing" [] []
   | Some t =>
       if falsy t then message_ "type-missing" [] []
       else match t with
            | JString "commonjs" | JString "module" => skip
            | _ => message_ "type-invalid" [SKey "type"] []
            end
   end ;;
   when (negb files) (message_ "files-missing" [] []) ;;
   match pj_exports pj with
   | Some value =>
       resolveExports rootInfo value ;;
       negationPass ;;
       mainSpecifierCheck ;;
       match pj_main pj with
       | Some _ => message_ "main-extra" [SKey "main"] []
       | None => skip
       end
   | None =>
       resolveMainExport (pj_main pj) (pj_type pj) ;;
       resolvePackagedFiles
   end ;;
   npmIgnoredPass files ;;
   sortPass) (mkState [] [] []).

(** [Export]: a [RawExport] without [filePath], [globbed], [jsonPathOrder]
    (and [url], see [RawExport]). *)
Record Export : Type := mkExport {
  e_conditions : option (list string);
  e_exists : bool;
  e_jsonPath : list segment;
  e_specifier : string
}.

Definition rawExportToExport (raw : RawExport) : Export :=
  mkExport (conditions raw) (exists_ raw) (jsonPath raw) (specifier raw).

(** [Result]; [r_messages] stands for [file.messages]. *)
Record Result : Type := mkResult {
  r_exports : list Export;
  r_messages : list message;
  r_name : option string
}.

Definition packageExports (pj : PackageJson) : option Result :=
  match packageExportsState pj with
  | None => None
  | Some st =>
      Some (mkResult (map rawExportToExport (exports st)) (messages st)
                     (match pj_name pj with Some (JString n) => Some n | _ => None end))
  end.

End Resolver.

(** ** A concrete environment, for the examples *)

(** A stand-in for [minimatch] on the patterns [addDynamic] builds:
    [**/] matches any number of directories and [*] any run of characters
    without [/]. *)
Fixpoint globMatch (fuel : nat) (pattern s : string) : bool :=
  match fuel with
  | 0 => false
  | S fuel' =>
      match pattern with
      | EmptyString => String.eqb s ""
      | String "*" (String "*" (String "/" rest)) =>
          globMatch fuel' rest s
          || match indexOf s "/" 0 with
             | Some i => globMatch fuel' pattern (sliceFrom s (i + 1))
             | None => false
             end
      | String "*" rest =>
          globMatch fuel' rest s
          || match s with
             | String c s' => negb (Ascii.eqb c "/") && globMatch fuel' pattern s'
             | EmptyString => false
             end
      | String c rest =>
          match s with
          | String d s' => Ascii.eqb c d && globMatch fuel' rest s'
          | EmptyString => false
          end
      end
  end.

Definition globStandIn (pattern s : string) : bool :=
  globMatch (S (String.length pattern) * S (String.length s)) pattern s.

(** Equality of JSON paths, and the number of diagnostics of a rule
    anchored at a path. *)
Definition segment_eq_dec (a b : segment) : {a = b} + {a <> b}.
Proof. decide equality; [apply Nat.eq_dec | apply string_dec]. Defined.

Definition path_eqb (a b : list segment) : bool :=
  if list_eq_dec segment_eq_dec a b then true else false.

Definition countAt (rule : string) (path : list segment) (msgs : list message) : nat :=
  List.length (filter (fun m => String.eqb (ruleId m) rule && path_eqb (place m) path) msgs).

(** [String.prototype.localeCompare] stand-in for the examples: code-unit
    order. *)
Definition codeUnitCompare (a b : string) : Z :=
  match String.compare a b with Lt => (-1)%Z | Eq => 0%Z | Gt => 1%Z end.

(** The order of the spec: [pathOrder] lexicographically, a strict prefix
    first, then the number of path segments of the specifier, then
    alphabetically ([alphabetical]). *)
Fixpoint specOrderCompare (left right : list nat) : comparison :=
  match left, right with
  | [], [] => Eq
  | [], _ :: _ => Lt
  | _ :: _, [] => Gt
  | x :: left', y :: right' =>
      match Nat.compare x y with
      | Eq => specOrderCompare left' right'
      | c => c
      end
  end.

Definition specCompareExport (alphabetical : string -> string -> Z)
    (left right : RawExport) : Z :=
  match specOrderCompare (jsonPathOrder left) (jsonPathOrder right) with
  | Lt => (-1)%Z
  | Gt => 1%Z
  | Eq =>
      let segments := (Z.of_nat (List.length (split "/" (specifier left)))
                       - Z.of_nat (List.length (split "/" (specifier right))))%Z in
      if negb (Z.eqb segments 0) then segments
      else alphabetical (specifier left) (specifier right)
  end.

(** [locale_compare] is antisymmetric in sign on the specifiers of
    [entries]. *)
Definition localeConsistentOn (locale_compare : string -> string -> Z)
    (entries : list RawExport) : bool :=
  forallb (fun a => forallb (fun b =>
             negb (0 <? locale_compare (specifier a) (specifier b))%Z
             || (locale_compare (specifier b) (specifier a) <=? 0)%Z)
           entries) entries.

(** Inputs of the examples. *)
Definition pkgMissingFile : PackageJson :=
  mkPackageJson (Some (JString "x")) (Some (JString "module")) true None
                (Some (JObject [(".", JString "./missing.js")])).

Definition pkgMainOnly : PackageJson :=
  mkPackageJson (Some (JString "x")) (Some (JString "commonjs")) true
                (Some (JString "index.js")) None.

Definition exportsRepeatedCondition : json :=
  JObject [("node", JObject [("node", JString "./a.js"); ("browser", JNull)])].

Definition exportsAddonsBrowserNode : json :=
  JObject [("node-addons",
            JObject [("browser", JObject [("node", JString "./index.js")])])].

Definition exportsLooseSpecifiers : json :=
  JObject [("./*", JString "./index.js"); (".foo", JString "./a.js")].

(** ** Shapes of what the walk appends *)

(** [a] only appends: entries satisfying [P], negations, and diagnostics
    satisfying [Q]. *)
Definition extends (P : RawExport -> Prop) (Q : message -> Prop) (a : M) : Prop :=
  forall st st', a st = Some st' ->
  exists ne nn nm,
    exports st' = (exports st ++ ne)%list
    /\ negatedExports st' = (negatedExports st ++ nn)%list
    /\ messages st' = (messages st ++ nm)%list
    /\ Forall P ne /\ Forall Q nm.

(** A diagnostic anchored at [path] or below it; [exports-types-verbose]
    strictly below it. *)
Definition anchoredUnder (path : list segment) (m : message) : Prop :=
  (exists rest, place m = (path ++ rest)%list)
  /\ (ruleId m = "exports-types-verbose" -> List.length path < List.length (place m)).

(** A diagnostic anchored below one key of the object at [path]; an
    [exports-types-verbose] one at least two steps below. *)
Definition anchoredBelowKey (path : list segment) (m : message) : Prop :=
  exists key rest, place m = (path ++ SKey key :: rest)%list
                   /\ (ruleId m = "exports-types-verbose" -> rest <> []).

(** The context of a walk: without [info.specifier], no key on the path
    starts with [.]; with one, it starts with [.] and is the one key on the
    path that does. *)
Definition contextOk (info : Info) : Prop :=
  match i_specifier info with
  | Some x =>
      startsWith x "." = true /\ In (SKey x) (i_path info)
      /\ forall k, In (SKey k) (i_path info) -> startsWith k "." = true -> k = x
  | None => forall k, In (SKey k) (i_path info) -> startsWith k "." = false
  end.

(** The shape of an entry the walk appends: its specifier starts with [.];
    a literal one has no [*], or (wildcard-useless case) one [*] and a file
    path without [*]; a wildcard-expanded one is the text of its dynamic
    specifier (starting with [.], one [*]) before and after its [*], around
    the substitution, where the dynamic specifier is the key on the entry's
    JSON path that starts with [.], and the only such key. *)
Definition walkEntryOk (e : RawExport) : Prop :=
  startsWith (specifier e) "." = true
  /\ (globbed e = false ->
        indexOf (specifier e) "*" 0 = None
        \/ (exists a, indexOf (specifier e) "*" 0 = Some a
                      /\ indexOf (specifier e) "*" (a + 1) = None
                      /\ indexOf (filePath e) "*" 0 = None))
  /\ (globbed e = true ->
        exists dynamic a substitution,
          startsWith dynamic "." = true
          /\ indexOf dynamic "*" 0 = Some a
          /\ indexOf dynamic "*" (a + 1) = None
          /\ specifier e = slice dynamic 0 a ++ substitution ++ sliceFrom dynamic (a + 1)
          /\ In (SKey dynamic) (jsonPath e)
          /\ forall k, In (SKey k) (jsonPath e) -> startsWith k "." = true -> k = dynamic).

(** * Properties *)

(** The rules of the header checks of [packageExports]. *)
Definition headerRules : list string :=
  ["name-missing"; "type-missing"; "type-invalid"; "files-missing"].

(** The rules of [resolveMainExport]. *)
Definition mainRules : list string :=
  ["main"; "main-resolve-module"; "main-resolve-commonjs"; "main-not-found";
   "main-invalid"; "main-inferred"; "main-missing"].

(** [conditions || []]. *)
Definition optList (o : option (list string)) : list string :=
  match o with Some l => l | None => [] end.

(** An entry found at or below [info]: its path and order extend those of
    [info] by the same number of steps, and each of its conditions is an
    active condition of [info] or a key on the extra steps. *)
Definition entryUnder (info : Info) (e : RawExport) : Prop :=
  exists q q', jsonPath e = (i_path info ++ q)%list
               /\ jsonPathOrder e = (i_pathOrder info ++ q')%list
               /\ List.length q = List.length q'
               /\ forall c, In c (optList (conditions e)) ->
                            In c (optList (i_conditions info)) \/ In (SKey c) q.

(** The number of diagnostics with a rule. *)
Definition countRule (rule : string) (ms : list message) : nat :=
  List.length (filter (fun m => String.eqb (ruleId m) rule) ms).

(** The number of entries recorded as missing. *)
Definition missingCount (es : list RawExport) : nat :=
  List.length (filter (fun e => negb (exists_ e)) es).

(** A step that only appends, and whose [exports-path-not-found]
    diagnostics are as many as the entries it records as missing. *)
Definition balanced (a : M) : Prop :=
  forall st st', a st = Some st' ->
  exists ne nm, exports st' = (exports st ++ ne)%list
                /\ messages st' = (messages st ++ nm)%list
                /\ countRule "exports-path-not-found" nm = missingCount ne.

(** Each character, with [sep] replaced by [/]. *)
Definition posixChars (sep : ascii) : string -> string :=
  fix go s := match s with
              | EmptyString => EmptyString
              | String c rest => String (if Ascii.eqb c sep then "/"%char else c) (go rest)
              end.


Section Properties.

Variable packagedFiles : list string.
Variable on_disk : string -> bool.
Variable minimatch_match : string -> string -> bool.
Variable locale_compare : string -> string -> Z.

Local Abbreviation resolve := (resolveExports packagedFiles on_disk minimatch_match).

Lemma andThen_skip_r (a : M) (st : State) : (a ;; skip) st = a st.
Proof. unfold andThen, skip. destruct (a st); reflexivity. Qed.

Lemma andThen_assoc (a b c : M) (st : State) : ((a ;; b) ;; c) st = (a ;; (b ;; c)) st.
Proof. unfold andThen. destruct (a st); reflexivity. Qed.

(** C8: an empty array only emits [exports-alternatives-empty] (no entry,
    no negation); a non-empty one emits [exports-alternatives] once and goes
    on with its item at index 0 alone: the items after it do not matter. *)
Theorem alternatives_first_item_only :
  forall (info : Info) (st : State),
    resolve info (JArray []) st
    = Some (mkState (exports st) (negatedExports st)
                    (messages st ++ [mkMessage "exports-alternatives-empty" (i_path info) []]))
  /\ forall (first : json) (rest rest' : list json),
    resolve info (JArray (first :: rest)) st
    = resolve (mkInfo (i_conditions info) (i_path info ++ [SIndex 0])
                      (i_pathOrder info ++ [0]) (i_specifier info))
              first
              (mkState (exports st) (negatedExports st)
                       (messages st ++ [mkMessage "exports-alternatives" (i_path info) []]))
    /\ resolve info (JArray (first :: rest)) st = resolve info (JArray (first :: rest')) st.
Proof.
  intros info st. split.
  - reflexivity.
  - intros first rest rest'. split; reflexivity.
Qed.

(** C10: a specifiers object whose only key is [.] (reached with no active
    specifier) emits [exports-specifiers-verbose] at its path, and the value
    at [.] is then resolved as usual, with specifier [.]. *)
Theorem specifiers_verbose_sole_dot :
  forall (conds : option (list string)) (path : list segment) (order : list nat)
         (value : json) (st : State),
    resolve (mkInfo conds path order None) (JObject [(".", value)]) st
    = resolve (mkInfo conds (path ++ [SKey "."]) (order ++ [0]) (Some "."))
              value
              (mkState (exports st) (negatedExports st)
                       (messages st ++ [mkMessage "exports-specifiers-verbose" path []])).
Proof.
  intros. simpl resolveExports. unfold resolveExportsObject. simpl.
  unfold resolveExportsSpecifiers, andThen. simpl.
  unfold when, skip, andThen. simpl.
  destruct (resolve _ value _); reflexivity.
Qed.

Lemma includes_In (l : list string) (x : string) : includes l x = true <-> In x l.
Proof.
  unfold includes. rewrite existsb_exists. split.
  - intros [y [Hy Heq]]. apply String.eqb_eq in Heq. subst. exact Hy.
  - intros H. exists x. split; [exact H | apply String.eqb_refl].
Qed.

Lemma all_npm_messages (files : bool) (l : list RawExport) (st : State) :
  all (map (fun export_ =>
              when (exists_ export_ && negb (includes packagedFiles (filePath export_)))
                   (message_ "npm-ignored" (jsonPath export_)
                             [filePath export_; if files then "files" else ".npmignore"]))
           l) st
  = Some (mkState (exports st) (negatedExports st)
           (messages st
            ++ map (fun e => mkMessage "npm-ignored" (jsonPath e)
                               [filePath e; if files then "files" else ".npmignore"])
                   (filter (fun e => exists_ e && negb (includes packagedFiles (filePath e))) l))).
Proof.
  revert st. induction l as [|e l IH]; intros st.
  - simpl. rewrite app_nil_r. destruct st; reflexivity.
  - simpl. unfold andThen, when.
    destruct (exists_ e && negb (includes packagedFiles (filePath e))) eqn:He.
    + unfold message_. rewrite IH. simpl. rewrite <- app_assoc. reflexivity.
    + unfold skip. rewrite IH. reflexivity.
Qed.

(** C1 (as amended): the npm-ignored pass emits one [npm-ignored]
    diagnostic, at the entry's JSON path, for every remaining entry that
    exists and whose file is not shipped, and none for an entry that does not
    exist. *)
Theorem npm_ignored_existing_entries :
  forall (files : bool) (st : State),
    npmIgnoredPass packagedFiles files st
    = Some (mkState (exports st) (negatedExports st)
             (messages st
              ++ map (fun e => mkMessage "npm-ignored" (jsonPath e)
                                 [filePath e; if files then "files" else ".npmignore"])
                     (filter (fun e => exists_ e && negb (includes packagedFiles (filePath e)))
                             (exports st)))).
Proof. intros files st. unfold npmIgnoredPass. apply all_npm_messages. Qed.

Lemma spliceMatching_filter (negated : NegatedExport) (l : list RawExport) :
  spliceMatching negated l
  = (filter (fun e => negb (negationMatches negated e)) l,
     existsb (negationMatches negated) l).
Proof.
  induction l as [|e l IH]; simpl; [reflexivity|].
  rewrite IH. destruct (negationMatches negated e); reflexivity.
Qed.

Lemma arrayEquivalent_sets (a b : list string) :
  NoDup a -> NoDup b -> (arrayEquivalent a b = true <-> forall x, In x a <-> In x b).
Proof.
  intros Ha Hb. unfold arrayEquivalent. rewrite andb_true_iff, Nat.eqb_eq, forallb_forall.
  split.
  - intros [Hlen Hsub].
    assert (Hincl : incl a b) by (intros x Hx; apply includes_In, Hsub, Hx).
    assert (Hback : incl b a) by (apply NoDup_length_incl; [exact Ha | lia | exact Hincl]).
    intros x; split; [apply Hincl | apply Hback].
  - intros Hset. split.
    + apply Nat.le_antisymm; apply NoDup_incl_length; auto;
        intros x Hx; apply Hset; exact Hx.
    + intros x Hx. apply includes_In, Hset, Hx.
Qed.

(** X16: one negation record removes exactly the entries that
    [negationMatches] selects (specifier equal to it, or starting with the
    part before its [*] and ending with the part after it; conditions both
    absent or [arrayEquivalent]), keeping the others in order, and emits one
    [exports-negated-missing] exactly when it selects none; on condition
    lists without repeats, [arrayEquivalent] is set equality. *)
Theorem negation_removes_matching :
  (forall (negated : NegatedExport) (st : State),
    removeNegated negated st
    = Some (mkState (filter (fun e => negb (negationMatches negated e)) (exports st))
                    (negatedExports st)
                    (messages st
                     ++ if existsb (negationMatches negated) (exports st) then []
                        else [mkMessage "exports-negated-missing" (n_jsonPath negated)
                                        [n_specifier negated]])))
  /\ (forall a b : list string,
        NoDup a -> NoDup b -> (arrayEquivalent a b = true <-> forall x, In x a <-> In x b)).
Proof.
  split.
  - intros negated st. unfold removeNegated. rewrite spliceMatching_filter.
    destruct (existsb (negationMatches negated) (exports st)); simpl.
    + rewrite app_nil_r. reflexivity.
    + reflexivity.
  - exact arrayEquivalent_sets.
Qed.

(** ** The walk only appends *)

Lemma extends_skip (P : RawExport -> Prop) (Q : message -> Prop) : extends P Q skip.
Proof.
  intros st st' H. injection H as <-. exists [], [], [].
  rewrite !app_nil_r. repeat split; constructor.
Qed.

Lemma extends_throw (P : RawExport -> Prop) (Q : message -> Prop) : extends P Q throw.
Proof. intros st st' H. discriminate. Qed.

Lemma extends_andThen (P : RawExport -> Prop) (Q : message -> Prop) (a b : M) :
  extends P Q a -> extends P Q b -> extends P Q (a ;; b).
Proof.
  intros Ha Hb st st'' H. unfold andThen in H.
  destruct (a st) as [st'|] eqn:E; [|discriminate].
  destruct (Ha _ _ E) as (ne1 & nn1 & nm1 & E1 & E2 & E3 & F1 & F2).
  destruct (Hb _ _ H) as (ne2 & nn2 & nm2 & G1 & G2 & G3 & F3 & F4).
  exists (ne1 ++ ne2)%list, (nn1 ++ nn2)%list, (nm1 ++ nm2)%list.
  rewrite G1, G2, G3, E1, E2, E3, !app_assoc.
  repeat split; try reflexivity; apply Forall_app; split; assumption.
Qed.

Lemma extends_message (P : RawExport -> Prop) (Q : message -> Prop)
    (rule : string) (path : list segment) (values : list string) :
  Q (mkMessage rule path values) -> extends P Q (message_ rule path values).
Proof.
  intros HQ st st' H. injection H as <-. exists [], [], [mkMessage rule path values].
  simpl. rewrite !app_nil_r. repeat split; repeat constructor; assumption.
Qed.

Lemma extends_pushExport (P : RawExport -> Prop) (Q : message -> Prop) (e : RawExport) :
  P e -> extends P Q (pushExport e).
Proof.
  intros HP st st' H. injection H as <-. exists [e], [], [].
  simpl. rewrite !app_nil_r. repeat split; repeat constructor; assumption.
Qed.

Lemma extends_pushNegated (P : RawExport -> Prop) (Q : message -> Prop) (n : NegatedExport) :
  extends P Q (pushNegated n).
Proof.
  intros st st' H. injection H as <-. exists [], [n], [].
  simpl. rewrite !app_nil_r. repeat split; constructor.
Qed.

Lemma extends_when (P : RawExport -> Prop) (Q : message -> Prop) (b : bool) (a : M) :
  extends P Q a -> extends P Q (when b a).
Proof. intros Ha. unfold when. destruct b; [exact Ha | apply extends_skip]. Qed.

Lemma extends_all (P : RawExport -> Prop) (Q : message -> Prop) (tasks : list M) :
  Forall (extends P Q) tasks -> extends P Q (all tasks).
Proof.
  induction 1 as [|task rest Ht Hrest IH]; simpl.
  - apply extends_skip.
  - apply extends_andThen; assumption.
Qed.

Lemma extends_mono (P P' : RawExport -> Prop) (Q Q' : message -> Prop) (a : M) :
  (forall e, P e -> P' e) -> (forall m, Q m -> Q' m) -> extends P Q a -> extends P' Q' a.
Proof.
  intros HP HQ Ha st st' H.
  destruct (Ha _ _ H) as (ne & nn & nm & E1 & E2 & E3 & F1 & F2).
  exists ne, nn, nm. repeat split; try assumption.
  - eapply Forall_impl; eassumption.
  - eapply Forall_impl; eassumption.
Qed.

Lemma anchored_here (path : list segment) (rule : string) (values : list string) :
  rule <> "exports-types-verbose" -> anchoredUnder path (mkMessage rule path values).
Proof.
  intros Hr. split.
  - exists []. simpl. rewrite app_nil_r. reflexivity.
  - simpl. intros E. contradiction.
Qed.

Lemma anchored_step (path : list segment) (step : segment) (rule : string)
    (values : list string) :
  anchoredUnder path (mkMessage rule (path ++ [step])%list values).
Proof.
  split.
  - exists [step]. reflexivity.
  - intros _. simpl. rewrite length_app. simpl. lia.
Qed.

Lemma anchored_child (path : list segment) (step : segment) (m : message) :
  anchoredUnder (path ++ [step])%list m -> anchoredUnder path m.
Proof.
  intros [[rest Hrest] Hlen]. split.
  - exists (step :: rest). rewrite Hrest, <- app_assoc. reflexivity.
  - intros Hr. specialize (Hlen Hr). rewrite length_app in Hlen. simpl in Hlen. lia.
Qed.

Lemma below_key_anchored (path : list segment) (m : message) :
  anchoredBelowKey path m -> anchoredUnder path m.
Proof.
  intros (key & rest & Hplace & Hr). split.
  - exists (SKey key :: rest). exact Hplace.
  - intros Hv. rewrite Hplace, length_app. simpl. lia.
Qed.

Lemma below_key_child (path : list segment) (key : string) (m : message) :
  anchoredUnder (path ++ [SKey key])%list m -> anchoredBelowKey path m.
Proof.
  intros [[rest Hrest] Hlen]. exists key, rest. split.
  - rewrite Hrest, <- app_assoc. reflexivity.
  - intros Hr Hnil. subst rest. specialize (Hlen Hr). rewrite Hrest, app_nil_r in Hlen. lia.
Qed.

Lemma below_key_step (path : list segment) (key rule : string) (values : list string) :
  rule <> "exports-types-verbose" ->
  anchoredBelowKey path (mkMessage rule (path ++ [SKey key])%list values).
Proof. intros Hr. exists key, []. split; [reflexivity | intros E; contradiction]. Qed.

(** ** Strings *)

Lemma startsWith_dot (s : string) :
  startsWith s "." = true -> exists rest, s = String "." rest.
Proof.
  unfold startsWith. destruct s as [|c rest]; [discriminate|].
  unfold String.prefix. destruct (ascii_dec "." c) as [<-|]; [|discriminate].
  intros _. exists rest. reflexivity.
Qed.

Lemma startsWith_dot_cons (rest : string) : startsWith (String "." rest) "." = true.
Proof.
  unfold startsWith, String.prefix.
  destruct (ascii_dec "." ".") as [_|n]; [destruct rest; reflexivity | congruence].
Qed.

(** A specifier starting with [.] keeps its [.] in front of its first [*]. *)
Lemma startsWith_dot_slice (s x : string) (a : nat) :
  startsWith s "." = true -> indexOf s "*" 0 = Some a ->
  startsWith (slice s 0 a ++ x) "." = true.
Proof.
  intros Hs Ha. destruct (startsWith_dot s Hs) as [rest ->].
  unfold indexOf in Ha. simpl in Ha. unfold String.prefix in Ha.
  destruct (ascii_dec "*" ".") as [E|_]; [discriminate E|].
  destruct a as [|a].
  - destruct (String.index 0 "*" rest); discriminate.
  - unfold slice. simpl. apply startsWith_dot_cons.
Qed.

Lemma specifierOrDot_ok (info : Info) :
  contextOk info -> startsWith (specifierOrDot (i_specifier info)) "." = true.
Proof.
  unfold contextOk. destruct (i_specifier info) as [x|]; simpl; [|reflexivity].
  intros [Hx _]. destruct (String.eqb x ""); [reflexivity | exact Hx].
Qed.

(** A specifier with a [*] is the one of the context, its key on the path. *)
Lemma contextOk_dynamic (info : Info) (a : nat) :
  contextOk info -> indexOf (specifierOrDot (i_specifier info)) "*" 0 = Some a ->
  In (SKey (specifierOrDot (i_specifier info))) (i_path info)
  /\ forall k, In (SKey k) (i_path info) -> startsWith k "." = true ->
               k = specifierOrDot (i_specifier info).
Proof.
  unfold contextOk. destruct (i_specifier info) as [x|]; simpl;
    [|intros _ E; discriminate E].
  intros (_ & Hin & Huniq). destruct (String.eqb x ""); [intros E; discriminate E|].
  intros _. split; assumption.
Qed.

Lemma contextOk_child (info : Info) (conditions : option (list string))
    (step : segment) (index : nat) :
  (forall k, step = SKey k -> startsWith k "." = false) ->
  contextOk info -> contextOk (childInfo info conditions step index (i_specifier info)).
Proof.
  unfold contextOk, childInfo. simpl. intros Hstep.
  destruct (i_specifier info) as [x|].
  - intros (Hx & Hin & Huniq). split; [exact Hx|]. split.
    + apply in_or_app. left. exact Hin.
    + intros k Hk Hdot. apply in_app_or in Hk. destruct Hk as [Hk|[Hk|[]]].
      * exact (Huniq k Hk Hdot).
      * rewrite (Hstep k Hk) in Hdot. discriminate Hdot.
  - intros Hnone k Hk. apply in_app_or in Hk. destruct Hk as [Hk|[Hk|[]]].
    + exact (Hnone k Hk).
    + exact (Hstep k Hk).
Qed.

Lemma contextOk_specifier (info : Info) (conditions : option (list string))
    (spec : string) (index : nat) :
  (forall k, In (SKey k) (i_path info) -> startsWith k "." = false) ->
  startsWith spec "." = true ->
  contextOk (childInfo info conditions (SKey spec) index (Some spec)).
Proof.
  unfold contextOk, childInfo. simpl. intros Hnone Hdot. split; [exact Hdot|]. split.
  - apply in_or_app. right. left. reflexivity.
  - intros k Hk Hk'. apply in_app_or in Hk. destruct Hk as [Hk|[Hk|[]]].
    + rewrite (Hnone k Hk) in Hk'. discriminate Hk'.
    + injection Hk as ->. reflexivity.
Qed.

Lemma contextOk_no_specifier (info : Info) :
  contextOk info -> truthy (i_specifier info) = false ->
  forall k, In (SKey k) (i_path info) -> startsWith k "." = false.
Proof.
  unfold contextOk. destruct (i_specifier info) as [x|]; simpl; [|tauto].
  intros (Hx & _) Ht. destruct (String.eqb x "") eqn:E; [|discriminate Ht].
  apply String.eqb_eq in E. subst x. discriminate Hx.
Qed.

Lemma contextOk_root : contextOk rootInfo.
Proof.
  unfold contextOk. simpl. intros k [Hk|[]]. injection Hk as <-. reflexivity.
Qed.

Lemma addResolved_extends (P : RawExport -> Prop) (info : Info)
    (definitelyExists explicitlyDefined : bool) (spec : string) (value : option string) :
  (forall v b, value = Some v ->
     P (mkRawExport (i_conditions info) b v (negb explicitlyDefined) (i_path info)
                    (i_pathOrder info) spec)) ->
  extends P (anchoredUnder (i_path info))
          (addResolved packagedFiles on_disk info definitelyExists explicitlyDefined spec value).
Proof.
  intros HP. unfold addResolved. destruct value as [v|].
  - cbv zeta. apply extends_andThen.
    + apply extends_pushExport. apply HP. reflexivity.
    + destruct (definitelyExists || includes packagedFiles v); [apply extends_skip|].
      unfold checkExists. simpl. destruct (on_disk v); [apply extends_skip|].
      apply extends_message, anchored_here. discriminate.
  - apply extends_pushNegated.
Qed.

Lemma addDynamic_extends (P : RawExport -> Prop) (info : Info) (before after : string)
    (parts : list string) :
  (forall r b, P (mkRawExport (i_conditions info) b (join r parts) true (i_path info)
                              (i_pathOrder info) (before ++ r ++ after))) ->
  extends P (anchoredUnder (i_path info))
          (addDynamic packagedFiles on_disk minimatch_match info before after parts).
Proof.
  intros HP. unfold addDynamic. cbv zeta.
  destruct (filter (minimatch_match (join "**/*" parts)) packagedFiles) as [|f fs].
  - apply extends_message, anchored_here. discriminate.
  - destruct (findWildcardReplacements parts (f :: fs)) as [replacements|];
      [|apply extends_throw].
    apply extends_all, Forall_forall. intros task Htask.
    apply in_map_iff in Htask. destruct Htask as (r & <- & _).
    apply addResolved_extends. intros v b E. injection E as <-. apply HP.
Qed.

Lemma addValue_extends (info : Info) (v : json) :
  extends (fun e => contextOk info -> walkEntryOk e)
          (anchoredUnder (i_path info))
          (addValue packagedFiles on_disk minimatch_match info v).
Proof.
  assert (Hleaf : forall value : option string,
    extends (fun e => contextOk info -> walkEntryOk e)
            (anchoredUnder (i_path info))
            (let specifier := specifierOrDot (i_specifier info) in
             match indexOf specifier "*" 0, value with
             | None, _ | _, None =>
                 addResolved packagedFiles on_disk info false true specifier value
             | Some specifierAsterisk, Some s =>
                 match indexOf specifier "*" (specifierAsterisk + 1) with
                 | Some _ =>
                     message_ "exports-specifier-wildcard-invalid" (i_path info)
                              [specifier]
                 | None =>
                     match indexOf s "*" 0 with
                     | None =>
                         message_ "exports-specifier-wildcard-useless" (i_path info)
                                  [specifier; s] ;;
                         addResolved packagedFiles on_disk info false true specifier value
                     | Some _ =>
                         addDynamic packagedFiles on_disk minimatch_match info
                                    (slice specifier 0 specifierAsterisk)
                                    (sliceFrom specifier (specifierAsterisk + 1))
                                    (split "*" s)
                     end
                 end
             end)).
  { intros value. cbv zeta.
    set (spec := specifierOrDot (i_specifier info)).
    destruct (indexOf spec "*" 0) as [a|] eqn:Ea.
    - destruct value as [s|].
      + destruct (indexOf spec "*" (a + 1)) as [b|] eqn:Eb.
        * apply extends_message, anchored_here. discriminate.
        * destruct (indexOf s "*" 0) as [c|] eqn:Ec.
          -- apply addDynamic_extends. intros r bexists Hok. simpl.
             split; [apply startsWith_dot_slice; [apply specifierOrDot_ok|]; assumption|].
             split; [discriminate|].
             intros _. destruct (contextOk_dynamic info a Hok Ea) as [Hin Huniq].
             exists spec, a, r.
             split; [apply specifierOrDot_ok; exact Hok|].
             repeat split; assumption.
          -- apply extends_andThen.
             ++ apply extends_message, anchored_here. discriminate.
             ++ apply addResolved_extends. intros w bexists E Hok.
                injection E as <-. simpl.
                split; [apply specifierOrDot_ok; exact Hok|].
                split; [|discriminate].
                intros _. right. exists a. repeat split; assumption.
      + apply addResolved_extends. intros w b E. discriminate.
    - apply addResolved_extends. intros w b _ Hok. simpl.
      split; [apply specifierOrDot_ok; exact Hok|].
      split; [|discriminate].
      intros _. left. exact Ea. }
  unfold addValue. destruct v as [| | | s | items | fields].
  - exact (Hleaf None).
  - apply extends_message, anchored_here. discriminate.
  - apply extends_message, anchored_here. discriminate.
  - destruct (startsWith s "./"); [exact (Hleaf (Some s))|].
    apply extends_message, anchored_here. discriminate.
  - apply extends_message, anchored_here. discriminate.
  - apply extends_message, anchored_here. discriminate.
Qed.

Lemma checkExclusive_extends (P : RawExport -> Prop) (info : Info) (condition : string) :
  extends P (anchoredBelowKey (i_path info)) (checkExclusive info condition).
Proof.
  unfold checkExclusive. apply extends_all, Forall_forall. intros task Htask.
  apply in_map_iff in Htask. destruct Htask as (exclusive & <- & _).
  destruct (i_conditions info) as [active|]; [|apply extends_skip].
  destruct (includes (me_conditions exclusive) condition); [|apply extends_skip].
  destruct (find (includes (me_conditions exclusive)) active); [|apply extends_skip].
  apply extends_message, below_key_step. discriminate.
Qed.

(** [checkTypes] emits at most [exports-types-verbose], at the [types] key. *)
Lemma checkTypes_extends (P : RawExport -> Prop) (info : Info)
    (fields : list (string * json)) :
  extends P (fun m => place m = (i_path info ++ [SKey "types"])%list
                      /\ ruleId m = "exports-types-verbose")
          (checkTypes info fields).
Proof.
  unfold checkTypes. cbv zeta.
  destruct (_ && _); [|apply extends_skip].
  destruct (lookup_field "default" fields) as [[| | | d | |]|]; try apply extends_skip;
  destruct (lookup_field "types" fields) as [[| | | t | |]|]; try apply extends_skip.
  destruct (pop (split "." d)) as [parts [ext|]]; [|apply extends_skip].
  destruct (_ && _); [|apply extends_skip].
  apply extends_message. split; reflexivity.
Qed.

Lemma conditionsLoop_extends (info : Info) (fields : list (string * json)) (index : nat) :
  Forall (fun kv => forall info',
            extends (fun e => contextOk info' -> walkEntryOk e)
                    (anchoredUnder (i_path info')) (resolve info' (snd kv))) fields ->
  extends (fun e => contextOk info ->
                    Forall (fun kv => startsWith (fst kv) "." = false) fields ->
                    walkEntryOk e)
          (anchoredBelowKey (i_path info))
          (conditionsLoop resolve info fields index).
Proof.
  intros H. revert index.
  induction H as [|[condition value] rest Hkv Hrest IH]; intros index;
    cbn [conditionsLoop].
  - apply extends_skip.
  - apply extends_andThen; [apply checkExclusive_extends|].
    apply extends_andThen.
    + eapply extends_mono; [| | apply Hkv].
      * intros e He Hok Hnd. apply He. apply contextOk_child; [|exact Hok].
        intros k Ek. injection Ek as <-. inversion Hnd as [|kv' rest' Hd _]. exact Hd.
      * intros m. apply below_key_child.
    + eapply extends_mono; [| | apply IH].
      * intros e He Hok Hnd. apply He; [exact Hok|].
        inversion Hnd as [|kv' rest' _ Hd]. exact Hd.
      * intros m Hm. exact Hm.
Qed.

Lemma specifiersLoop_extends (info : Info) (keys : list string)
    (fields : list (string * json)) (index : nat) :
  Forall (fun kv => forall info',
            extends (fun e => contextOk info' -> walkEntryOk e)
                    (anchoredUnder (i_path info')) (resolve info' (snd kv))) fields ->
  Forall (fun kv => startsWith (fst kv) "." = true) fields ->
  extends (fun e => (forall k, In (SKey k) (i_path info) -> startsWith k "." = false) ->
                    walkEntryOk e)
          (anchoredUnder (i_path info))
          (specifiersLoop resolve info keys fields index).
Proof.
  intros H. revert index.
  induction H as [|[spec value] rest Hkv Hrest IH]; intros index Hdots;
    cbn [specifiersLoop].
  - apply extends_skip.
  - inversion Hdots as [|kv' rest' Hdot Hdots']. subst. simpl in Hdot.
    apply extends_andThen.
    + unfold pop. destruct (last (map Some (split "." spec)) None) as [ext|].
      * apply extends_when, extends_message, anchored_here. discriminate.
      * apply extends_skip.
    + apply extends_andThen; [|apply IH; exact Hdots'].
      eapply extends_mono; [| | apply Hkv].
      * intros e He Hnone. apply He. apply contextOk_specifier; assumption.
      * intros m. apply anchored_child.
Qed.

(** [conditionsDefault] emits no [exports-types-verbose]. *)
Lemma conditionsDefault_extends (P : RawExport -> Prop) (info : Info) (keys : list string) :
  extends P (fun m => ruleId m <> "exports-types-verbose" /\ anchoredUnder (i_path info) m)
          (conditionsDefault info keys).
Proof.
  unfold conditionsDefault. cbv zeta.
  destruct (last (map Some keys) None) as [last_|]; [|apply extends_throw].
  destruct (String.eqb last_ ""); [apply extends_throw|].
  destruct (includes keys "default").
  - apply extends_when, extends_message. split; [discriminate | apply anchored_step].
  - destruct (existsb _ _); [apply extends_skip|].
    apply extends_message. split; [discriminate|]. apply anchored_here. discriminate.
Qed.

(** The keys of an object classified as specifiers all start with [.]. *)
Lemma dotsMixed_fold (keys : list string) (dots : option bool) (mixed d : bool) :
  fold_left dotsStep keys (dots, mixed) = (Some d, false) ->
  (dots = None \/ dots = Some d) /\ mixed = false
  /\ Forall (fun key => startsWith key "." = d) keys.
Proof.
  revert dots mixed. induction keys as [|key keys IH]; intros dots mixed H; simpl in H.
  - injection H as -> ->. auto.
  - destruct dots as [d0|]; simpl in H.
    + destruct (Bool.eqb d0 (startsWith key ".")) eqn:Eb.
      * apply IH in H. destruct H as [[E|E] [-> Hall]]; [discriminate|].
        injection E as ->. apply Bool.eqb_prop in Eb.
        split; [right; reflexivity|]. split; [reflexivity|]. constructor; auto.
      * apply IH in H. destruct H as [_ [E _]]. discriminate.
    + apply IH in H. destruct H as [[E|E] [-> Hall]]; [discriminate|].
      injection E as Ed. split; [left; reflexivity|]. split; [reflexivity|].
      constructor; assumption.
Qed.

Lemma dotsMixed_condition_keys (fields : list (string * json)) :
  dotsMixed (map fst fields) = (Some false, false) ->
  Forall (fun kv => startsWith (fst kv) "." = false) fields.
Proof.
  intros H. apply dotsMixed_fold in H. destruct H as [_ [_ Hall]].
  apply Forall_map in Hall. exact Hall.
Qed.

Lemma dotsMixed_specifiers (fields : list (string * json)) :
  dotsMixed (map fst fields) = (Some true, false) ->
  Forall (fun kv => startsWith (fst kv) "." = true) fields.
Proof.
  intros H. apply dotsMixed_fold in H. destruct H as [_ [_ Hall]].
  apply Forall_map in Hall. exact Hall.
Qed.

(** Induction over JSON values, through the items of arrays and the
    values of objects. *)
Lemma json_ind_nested (P : json -> Prop) :
  (forall v, match v with
             | JArray items => Forall P items
             | JObject fields => Forall (fun kv => P (snd kv)) fields
             | _ => True
             end -> P v) ->
  forall v, P v.
Proof.
  intros H. fix IH 1. intros v. apply H. destruct v as [| | | | items | fields].
  1-4: exact I.
  - exact ((fix go (l : list json) : Forall P l :=
              match l with
              | [] => Forall_nil _
              | x :: rest => Forall_cons x (IH x) (go rest)
              end) items).
  - exact ((fix go (l : list (string * json)) : Forall (fun kv => P (snd kv)) l :=
              match l with
              | [] => Forall_nil _
              | kv :: rest => Forall_cons kv (IH (snd kv)) (go rest)
              end) fields).
Qed.

(** The walk only appends: entries of the shape [walkEntryOk] (when it
    starts from a specifier that is absent or starts with [.]), negations,
    and diagnostics anchored at its path or below. *)
Lemma walk_extends (v : json) (info : Info) :
  extends (fun e => contextOk info -> walkEntryOk e)
          (anchoredUnder (i_path info)) (resolve info v).
Proof.
  revert info. induction v as [v IHv] using json_ind_nested. intros info.
  destruct v as [| | | s | items | fields]; cbn [resolveExports];
    try apply addValue_extends.
  - unfold resolveExportsList. destruct items as [|first rest].
    + apply extends_message, anchored_here. discriminate.
    + apply extends_andThen; [apply extends_message, anchored_here; discriminate|].
      inversion IHv as [|x xs Hfirst _]. subst.
      eapply extends_mono; [| | apply Hfirst].
      * intros e He Hok. apply He.
        apply contextOk_child; [intros k Ek; discriminate Ek | exact Hok].
      * intros m. apply anchored_child.
  - unfold resolveExportsObject. cbv zeta.
    destruct (dotsMixed (map fst fields)) as [[d|] mixed] eqn:Edm;
      [|apply extends_message, anchored_here; discriminate].
    destruct mixed; [apply extends_message, anchored_here; discriminate|].
    destruct (d && truthy (i_specifier info)) eqn:Edt;
      [apply extends_message, anchored_here; discriminate|].
    destruct d.
    + unfold resolveExportsSpecifiers. cbv zeta.
      apply extends_andThen;
        [apply extends_when, extends_message, anchored_here; discriminate|].
      eapply extends_mono; [| | apply specifiersLoop_extends].
      * intros e He Hok. apply He. exact (contextOk_no_specifier info Hok Edt).
      * intros m Hm. exact Hm.
      * exact IHv.
      * apply dotsMixed_specifiers. exact Edm.
    + unfold resolveExportsConditions. cbv zeta.
      apply extends_andThen;
        [apply extends_when, extends_message, anchored_here; discriminate|].
      apply extends_andThen.
      { eapply extends_mono; [| | apply checkTypes_extends].
        - intros e He. exact He.
        - intros m [Hplace Hrule]. split.
          + exists [SKey "types"]. exact Hplace.
          + intros _. rewrite Hplace, length_app. simpl. lia. }
      apply extends_andThen.
      { eapply extends_mono; [| | apply conditionsLoop_extends].
        - intros e He Hok. apply He; [exact Hok|].
          apply dotsMixed_condition_keys. exact Edm.
        - apply below_key_anchored.
        - exact IHv. }
      eapply extends_mono; [| | apply conditionsDefault_extends].
      * intros e He. exact He.
      * intros m [_ Hm]. exact Hm.
Qed.

(** C2 (as amended): every entry the walk of [exports] appends has a
    specifier starting with [.]; a literal entry's specifier has no [*],
    except in the wildcard-useless case, where it keeps its one [*] and the
    file path has none; a wildcard-expanded entry's specifier is the text of
    its dynamic specifier before and after its one [*], around the
    substitution, where the dynamic specifier is the entry's own specifier
    key: the one key on its JSON path that starts with [.]. *)
Theorem walk_entries_shape :
  forall (v : json) (st st' : State),
    resolve rootInfo v st = Some st' ->
    exists entries, exports st' = (exports st ++ entries)%list
                    /\ Forall walkEntryOk entries.
Proof.
  intros v st st' H.
  destruct (walk_extends v rootInfo st st' H) as (ne & nn & nm & E & _ & _ & F & _).
  exists ne. split; [exact E|].
  eapply Forall_impl; [|exact F]. intros e He. apply He. exact contextOk_root.
Qed.

(** ** Wildcard expansion *)

Lemma replacementFor_join (parts : list string) (filePath r : string) :
  replacementFor parts filePath = Some (Some r) -> join r parts = filePath.
Proof.
  unfold replacementFor. destruct parts as [|first [|second others]]; try discriminate.
  destruct (startsWith filePath first); [|discriminate].
  intros H. injection H as H. apply find_some in H. destruct H as [_ H].
  apply String.eqb_eq. exact H.
Qed.

Lemma findWildcardReplacements_files (parts files replacements : list string) :
  findWildcardReplacements parts files = Some replacements -> NoDup files ->
  NoDup (map (fun r => join r parts) replacements)
  /\ forall r, In r replacements -> In (join r parts) files.
Proof.
  revert replacements. induction files as [|f files IH]; intros replacements H Hnd.
  - injection H as <-. split; [constructor | intros r []].
  - simpl in H.
    destruct (replacementFor parts f) as [found|] eqn:Ef; [|discriminate].
    destruct (findWildcardReplacements parts files) as [results|] eqn:Er; [|discriminate].
    injection H as <-. inversion Hnd as [|f' files' Hnotin Hnd']. subst.
    destruct (IH results eq_refl Hnd') as [Hmap Hin].
    destruct found as [r|].
    + apply replacementFor_join in Ef. simpl. split.
      * constructor; [|exact Hmap]. rewrite Ef. intros Hf.
        apply in_map_iff in Hf. destruct Hf as (r' & Er' & Hr').
        apply Hnotin. rewrite <- Er'. apply Hin. exact Hr'.
      * intros r' [<-|Hr']; [left; symmetry; exact Ef | right; apply Hin; exact Hr'].
    + split; [exact Hmap|]. intros r' Hr'. right. apply Hin. exact Hr'.
Qed.

Lemma findWildcardReplacements_complete (parts files replacements : list string) :
  findWildcardReplacements parts files = Some replacements ->
  forall f r, In f files -> replacementFor parts f = Some (Some r) -> In r replacements.
Proof.
  revert replacements. induction files as [|f0 files IH]; intros replacements H f r Hf Er.
  - destruct Hf.
  - simpl in H.
    destruct (replacementFor parts f0) as [found|] eqn:Ef; [|discriminate].
    destruct (findWildcardReplacements parts files) as [results|] eqn:Eres; [|discriminate].
    injection H as <-. destruct Hf as [<-|Hf].
    + rewrite Ef in Er. injection Er as ->. left. reflexivity.
    + destruct found as [r0|]; [right|]; exact (IH results eq_refl f r Hf Er).
Qed.

Lemma all_addResolved_known (info : Info) (before after : string) (parts : list string)
    (replacements : list string) (st : State) :
  all (map (fun replacement =>
              addResolved packagedFiles on_disk info true false
                (before ++ replacement ++ after) (Some (join replacement parts)))
           replacements) st
  = Some (mkState (exports st
                   ++ map (fun r => mkRawExport (i_conditions info) true (join r parts) true
                                      (i_path info) (i_pathOrder info) (before ++ r ++ after))
                          replacements)
                  (negatedExports st) (messages st)).
Proof.
  revert st. induction replacements as [|r rs IH]; intros st.
  - simpl. rewrite app_nil_r. destruct st; reflexivity.
  - simpl. unfold andThen, addResolved, pushExport, skip. simpl.
    rewrite IH. simpl. rewrite <- app_assoc. reflexivity.
Qed.

(** C3: under distinct shipped files, the entries [addDynamic] appends are
    one per substitution that [findWildcardReplacements] finds for the
    shipped files matching the glob; every successful substitution of such
    a file is among them, and they are distinct; each entry exists, is
    wildcard-expanded ([globbed]), has file path the value parts joined with
    its substitution, which is a shipped file matching the glob, and has
    specifier [before ++ substitution ++ after]. *)
Theorem wildcard_round_trip :
  forall (info : Info) (before after : string) (parts : list string) (st st' : State),
    NoDup packagedFiles ->
    addDynamic packagedFiles on_disk minimatch_match info before after parts st = Some st' ->
    exists replacements,
      findWildcardReplacements parts
        (filter (minimatch_match (join "**/*" parts)) packagedFiles) = Some replacements
      /\ (forall f r, In f (filter (minimatch_match (join "**/*" parts)) packagedFiles) ->
            replacementFor parts f = Some (Some r) -> In r replacements)
      /\ NoDup replacements
      /\ NoDup (map (fun r => join r parts) replacements)
      /\ (forall r, In r replacements ->
            In (join r parts) (filter (minimatch_match (join "**/*" parts)) packagedFiles))
      /\ exports st'
         = (exports st
            ++ map (fun r => mkRawExport (i_conditions info) true (join r parts) true
                               (i_path info) (i_pathOrder info) (before ++ r ++ after))
                   replacements)%list.
Proof.
  intros info before after parts st st' Hnd H.
  unfold addDynamic in H. cbv zeta in H.
  assert (Hfnd : NoDup (filter (minimatch_match (join "**/*" parts)) packagedFiles))
    by (apply NoDup_filter; exact Hnd).
  destruct (filter (minimatch_match (join "**/*" parts)) packagedFiles) as [|f fs] eqn:Ef.
  - injection H as <-. exists []. simpl. rewrite app_nil_r.
    repeat split; try constructor; [intros f r []|intros r []].
  - destruct (findWildcardReplacements parts (f :: fs)) as [replacements|] eqn:Er;
      [|discriminate].
    rewrite all_addResolved_known in H. injection H as <-.
    destruct (findWildcardReplacements_files parts (f :: fs) replacements Er Hfnd)
      as [Hmap Hin].
    exists replacements. split; [reflexivity|].
    split; [exact (findWildcardReplacements_complete parts (f :: fs) replacements Er)|].
    split; [|split; [exact Hmap|split; [exact Hin | reflexivity]]].
    eapply NoDup_map_inv. exact Hmap.
Qed.

(** ** Counting diagnostics *)

Lemma path_eqb_true (a b : list segment) : path_eqb a b = true -> a = b.
Proof. unfold path_eqb. destruct (list_eq_dec segment_eq_dec a b); congruence. Qed.

Lemma countAt_app (rule : string) (path : list segment) (l1 l2 : list message) :
  countAt rule path (l1 ++ l2) = countAt rule path l1 + countAt rule path l2.
Proof. unfold countAt. rewrite filter_app, length_app. reflexivity. Qed.

Lemma countAt_none (rule : string) (path : list segment) (l : list message) :
  Forall (fun m => ruleId m <> rule \/ place m <> path) l -> countAt rule path l = 0.
Proof.
  induction 1 as [|m l Hm Hl IH]; [reflexivity|].
  unfold countAt in *. simpl.
  destruct (String.eqb (ruleId m) rule && path_eqb (place m) path) eqn:E; [|exact IH].
  apply andb_true_iff in E. destruct E as [E1 E2].
  apply String.eqb_eq in E1. apply path_eqb_true in E2. destruct Hm; contradiction.
Qed.

Lemma countAt_extends (rule : string) (path : list segment) (P : RawExport -> Prop)
    (Q : message -> Prop) (a : M) (st st' : State) :
  extends P Q a -> (forall m, Q m -> ruleId m <> rule \/ place m <> path) ->
  a st = Some st' -> countAt rule path (messages st') = countAt rule path (messages st).
Proof.
  intros Ha HQ H. destruct (Ha _ _ H) as (ne & nn & nm & _ & _ & E & _ & F).
  rewrite E, countAt_app, (countAt_none rule path nm); [lia|].
  eapply Forall_impl; [|exact F]. exact HQ.
Qed.

Lemma andThen_Some (a b : M) (st st' : State) :
  (a ;; b) st = Some st' -> exists st1, a st = Some st1 /\ b st1 = Some st'.
Proof.
  unfold andThen. destruct (a st) as [st1|]; [|discriminate].
  intros H. exists st1. split; [reflexivity | exact H].
Qed.

Lemma below_key_not_here (path : list segment) (m : message) :
  anchoredBelowKey path m -> place m <> path.
Proof.
  intros (key & rest & Hplace & _) E. rewrite Hplace in E.
  apply (f_equal (@List.length segment)) in E. rewrite length_app in E. simpl in E. lia.
Qed.

Lemma below_key_not_types (path : list segment) (m : message) :
  anchoredBelowKey path m ->
  ruleId m <> "exports-types-verbose" \/ place m <> (path ++ [SKey "types"])%list.
Proof.
  intros (key & rest & Hplace & Hr).
  destruct (string_dec (ruleId m) "exports-types-verbose") as [Ev|Nv]; [|left; exact Nv].
  right. intros E. rewrite Hplace in E. apply app_inv_head in E.
  injection E as _ Erest. exact (Hr Ev Erest).
Qed.

(** The fields of a conditions object resolve with the walk's shape. *)
Lemma fields_extend (fields : list (string * json)) :
  Forall (fun kv => forall info',
            extends (fun e => contextOk info' -> walkEntryOk e)
                    (anchoredUnder (i_path info')) (resolve info' (snd kv))) fields.
Proof. apply Forall_forall. intros kv _ info'. apply walk_extends. Qed.

(** ** [default] and exhaustive groups *)

Lemma conditionsDefault_no_default (info : Info) (keys : list string) (st st' : State) :
  ~ In "default" keys -> conditionsDefault info keys st = Some st' ->
  st' = if existsb (fun exclusive =>
                      exhaustive exclusive
                      && forallb (includes keys) (me_conditions exclusive))
                   mutuallyExclusiveConditions
        then st
        else mkState (exports st) (negatedExports st)
               (messages st ++ [mkMessage "exports-conditions-default-missing" (i_path info)
                                          [specifierOrDot (i_specifier info)]]).
Proof.
  intros Hno H. unfold conditionsDefault in H. cbv zeta in H.
  destruct (last (map Some keys) None) as [last_|]; [|discriminate].
  destruct (String.eqb last_ ""); [discriminate|].
  assert (Hinc : includes keys "default" = false).
  { destruct (includes keys "default") eqn:E; [|reflexivity].
    apply includes_In in E. contradiction. }
  rewrite Hinc in H.
  destruct (existsb _ _).
  - injection H as <-. reflexivity.
  - injection H as <-. reflexivity.
Qed.

Lemma exhaustive_group_iff (keys : list string) :
  existsb (fun exclusive =>
             exhaustive exclusive && forallb (includes keys) (me_conditions exclusive))
          mutuallyExclusiveConditions = true
  <-> exists exclusive, In exclusive mutuallyExclusiveConditions
                        /\ exhaustive exclusive = true
                        /\ forall c, In c (me_conditions exclusive) -> In c keys.
Proof.
  rewrite existsb_exists. split.
  - intros (g & Hg & Hb). apply andb_true_iff in Hb. destruct Hb as [He Hall].
    rewrite forallb_forall in Hall. exists g. split; [exact Hg|]. split; [exact He|].
    intros c Hc. apply includes_In, Hall, Hc.
  - intros (g & Hg & He & Hall). exists g. split; [exact Hg|].
    apply andb_true_iff. split; [exact He|]. apply forallb_forall.
    intros c Hc. apply includes_In, Hall, Hc.
Qed.

(** C6: the only exhaustive group is [import, require]; a conditions object
    without a [default] key gets no [exports-conditions-default-missing] at
    its path when all members of an exhaustive group are keys, and exactly
    one otherwise. *)
Theorem default_missing_unless_exhaustive :
  (forall exclusive, In exclusive mutuallyExclusiveConditions ->
     exhaustive exclusive = true -> me_conditions exclusive = ["import"; "require"])
  /\ forall (info : Info) (fields : list (string * json)) (st st' : State),
    ~ In "default" (map fst fields) ->
    resolveExportsConditions resolve info fields st = Some st' ->
    ((exists exclusive, In exclusive mutuallyExclusiveConditions
                        /\ exhaustive exclusive = true
                        /\ forall c, In c (me_conditions exclusive) -> In c (map fst fields)) ->
     countAt "exports-conditions-default-missing" (i_path info) (messages st')
     = countAt "exports-conditions-default-missing" (i_path info) (messages st))
    /\ (~ (exists exclusive, In exclusive mutuallyExclusiveConditions
                             /\ exhaustive exclusive = true
                             /\ forall c, In c (me_conditions exclusive) ->
                                          In c (map fst fields)) ->
        countAt "exports-conditions-default-missing" (i_path info) (messages st')
        = countAt "exports-conditions-default-missing" (i_path info) (messages st) + 1).
Proof.
  split.
  - intros g Hg He. simpl in Hg.
    repeat destruct Hg as [<-|Hg]; try discriminate; [reflexivity|contradiction].
  - intros info fields st st' Hno H.
    unfold resolveExportsConditions in H. cbv zeta in H.
    apply andThen_Some in H. destruct H as (st1 & H1 & H).
    apply andThen_Some in H. destruct H as (st2 & H2 & H).
    apply andThen_Some in H. destruct H as (st3 & H3 & H4).
    assert (Hpre : countAt "exports-conditions-default-missing" (i_path info) (messages st3)
                   = countAt "exports-conditions-default-missing" (i_path info) (messages st)).
    { assert (E3 : countAt "exports-conditions-default-missing" (i_path info) (messages st3)
                   = countAt "exports-conditions-default-missing" (i_path info) (messages st2)).
      { eapply countAt_extends; [apply (conditionsLoop_extends info fields 0 (fields_extend fields))
                                | | exact H3].
        intros m Hm. right. apply below_key_not_here. exact Hm. }
      assert (E2 : countAt "exports-conditions-default-missing" (i_path info) (messages st2)
                   = countAt "exports-conditions-default-missing" (i_path info) (messages st1)).
      { eapply countAt_extends; [apply (checkTypes_extends (fun _ => True)) | | exact H2].
        intros m [_ Hr]. left. rewrite Hr. discriminate. }
      assert (E1 : countAt "exports-conditions-default-missing" (i_path info) (messages st1)
                   = countAt "exports-conditions-default-missing" (i_path info) (messages st)).
      { eapply countAt_extends;
          [apply (extends_when (fun _ => True) (fun m => ruleId m = "exports-conditions-verbose"));
           apply extends_message; reflexivity | | exact H1].
        intros m Hr. left. rewrite Hr. discriminate. }
      congruence. }
    apply conditionsDefault_no_default in H4; [|exact Hno].
    rewrite <- exhaustive_group_iff.
    destruct (existsb _ _); subst st'.
    + split; [intros _; exact Hpre | intros Hn; contradiction Hn; reflexivity].
    + split; [intros E; discriminate E|intros _].
      simpl. rewrite countAt_app, Hpre. f_equal.
      unfold countAt. simpl. try rewrite String.eqb_refl. simpl.
      unfold path_eqb. destruct (list_eq_dec segment_eq_dec (i_path info) (i_path info));
        [reflexivity | contradiction].
Qed.

(** ** [types] next to [default] *)

Lemma string_app_assoc (a b c : string) : (a ++ b) ++ c = a ++ (b ++ c).
Proof. induction a as [|x a IH]; simpl; [reflexivity | rewrite IH; reflexivity]. Qed.

Lemma split_cons (sep : ascii) (s : string) : exists first others, split sep s = first :: others.
Proof.
  induction s as [|c s IH]; simpl.
  - eexists _, _. reflexivity.
  - destruct IH as (first & others & E). rewrite E.
    destruct (Ascii.eqb c sep); eexists _, _; reflexivity.
Qed.

Lemma split_app (sep : ascii) (s1 s2 : string) :
  split sep (s1 ++ String sep s2) = (split sep s1 ++ split sep s2)%list.
Proof.
  induction s1 as [|c s1 IH]; simpl.
  - rewrite Ascii.eqb_refl. reflexivity.
  - rewrite IH. destruct (Ascii.eqb c sep); [reflexivity|].
    destruct (split_cons sep s1) as (first & others & E). rewrite E. reflexivity.
Qed.

Lemma join_split (sep : ascii) (s : string) : join (String sep EmptyString) (split sep s) = s.
Proof.
  unfold join. induction s as [|c s IH]; simpl; [reflexivity|].
  destruct (Ascii.eqb c sep) eqn:Ec.
  - apply Ascii.eqb_eq in Ec. subst c.
    destruct (split_cons sep s) as (first & others & E). rewrite E in *.
    rewrite <- IH. destruct others; reflexivity.
  - destruct (split_cons sep s) as (first & others & E). rewrite E in *.
    rewrite <- IH. destruct others; reflexivity.
Qed.

Lemma concat_app (sep : string) (l1 l2 : list string) :
  l1 <> [] -> l2 <> [] ->
  String.concat sep (l1 ++ l2) = String.concat sep l1 ++ sep ++ String.concat sep l2.
Proof.
  intros H1 H2. induction l1 as [|x l1 IH]; [contradiction|].
  destruct l1 as [|y l1].
  - simpl. destruct l2; [contradiction | reflexivity].
  - change (String.concat sep (x :: (y :: l1) ++ l2)
            = (x ++ sep ++ String.concat sep (y :: l1)) ++ sep ++ String.concat sep l2).
    simpl ((x :: y :: l1) ++ l2)%list.
    change (x ++ sep ++ String.concat sep ((y :: l1) ++ l2)
            = (x ++ sep ++ String.concat sep (y :: l1)) ++ sep ++ String.concat sep l2).
    rewrite IH by discriminate. rewrite !string_app_assoc. reflexivity.
Qed.

Lemma lookup_field_In {A : Type} (key : string) (fields : list (string * A)) (v : A) :
  lookup_field key fields = Some v -> In key (map fst fields).
Proof.
  induction fields as [|[k w] fields IH]; simpl; [discriminate|].
  destruct (String.eqb k key) eqn:E.
  - intros _. left. apply String.eqb_eq. exact E.
  - intros H. right. apply IH. exact H.
Qed.

(** [checkTypes] on a [default] ending in [.js], [.cjs] or [.mjs]. *)
Lemma checkTypes_default_ext (info : Info) (fields : list (string * json))
    (base ext dext t : string) (st : State) :
  lookup_field "default" fields = Some (JString (base ++ "." ++ ext)) ->
  lookup_field "types" fields = Some (JString t) ->
  In (ext, dext) [("js", "ts"); ("cjs", "cts"); ("mjs", "mts")] ->
  checkTypes info fields st
  = Some (if String.eqb t (base ++ ".d." ++ dext)
          then mkState (exports st) (negatedExports st)
                 (messages st ++ [mkMessage "exports-types-verbose"
                                            (i_path info ++ [SKey "types"]) []])
          else st).
Proof.
  intros Hd Ht Hext. unfold checkTypes. cbv zeta.
  rewrite (proj2 (includes_In _ _) (lookup_field_In _ _ _ Hd)),
          (proj2 (includes_In _ _) (lookup_field_In _ _ _ Ht)), Hd, Ht. simpl andb.
  assert (Hpop : forall e, split "." e = [e] ->
            pop (split "." (base ++ "." ++ e)) = (split "." base, Some e)).
  { intros e He. change ("." ++ e) with (String "." e).
    rewrite split_app, He. unfold pop. rewrite removelast_last, map_app.
    change (map Some [e]) with [Some e]. rewrite last_last. reflexivity. }
  assert (Hjoin : forall d, join "." (split "." base ++ ["d"; d])%list = base ++ ".d." ++ d).
  { intros d. unfold join.
    destruct (split_cons "." base) as (first & others & E).
    rewrite concat_app; [|rewrite E; discriminate | discriminate].
    fold (join "." (split "." base)). rewrite join_split. reflexivity. }
  simpl in Hext.
  destruct Hext as [E|[E|[E|[]]]]; injection E as <- <-;
    rewrite Hpop by reflexivity; cbv beta iota;
    rewrite Hjoin; cbn [String.eqb Ascii.eqb Bool.eqb orb andb replaceFirst];
    (destruct (String.eqb t _); [reflexivity | destruct st; reflexivity]).
Qed.

Lemma countAt_single (rule : string) (path : list segment) (values : list string) :
  countAt rule path [mkMessage rule path values] = 1.
Proof.
  unfold countAt. simpl. rewrite String.eqb_refl. unfold path_eqb.
  destruct (list_eq_dec segment_eq_dec path path); [reflexivity | contradiction].
Qed.

(** C9: in a conditions object whose [default] is a string [base.js],
    [base.cjs] or [base.mjs] and whose [types] is a string [t], one
    [exports-types-verbose] is emitted at the [types] key when [t] is
    [base.d.ts], [base.d.cts] or [base.d.mts] respectively, and none
    otherwise. *)
Theorem types_verbose_iff_default_dts :
  forall (info : Info) (fields : list (string * json)) (base ext dext t : string)
         (st st' : State),
    lookup_field "default" fields = Some (JString (base ++ "." ++ ext)) ->
    lookup_field "types" fields = Some (JString t) ->
    In (ext, dext) [("js", "ts"); ("cjs", "cts"); ("mjs", "mts")] ->
    resolveExportsConditions resolve info fields st = Some st' ->
    countAt "exports-types-verbose" (i_path info ++ [SKey "types"]) (messages st')
    = countAt "exports-types-verbose" (i_path info ++ [SKey "types"]) (messages st)
      + (if String.eqb t (base ++ ".d." ++ dext) then 1 else 0).
Proof.
  intros info fields base ext dext t st st' Hd Ht Hext H.
  unfold resolveExportsConditions in H. cbv zeta in H.
  apply andThen_Some in H. destruct H as (st1 & H1 & H).
  apply andThen_Some in H. destruct H as (st2 & H2 & H).
  apply andThen_Some in H. destruct H as (st3 & H3 & H4).
  assert (E1 : countAt "exports-types-verbose" (i_path info ++ [SKey "types"]) (messages st1)
               = countAt "exports-types-verbose" (i_path info ++ [SKey "types"]) (messages st)).
  { eapply countAt_extends;
      [apply (extends_when (fun _ => True) (fun m => ruleId m = "exports-conditions-verbose"));
       apply extends_message; reflexivity | | exact H1].
    intros m Hr. left. rewrite Hr. discriminate. }
  assert (E3 : countAt "exports-types-verbose" (i_path info ++ [SKey "types"]) (messages st3)
               = countAt "exports-types-verbose" (i_path info ++ [SKey "types"]) (messages st2)).
  { eapply countAt_extends; [apply (conditionsLoop_extends info fields 0 (fields_extend fields))
                            | | exact H3].
    intros m Hm. apply below_key_not_types. exact Hm. }
  assert (E4 : countAt "exports-types-verbose" (i_path info ++ [SKey "types"]) (messages st')
               = countAt "exports-types-verbose" (i_path info ++ [SKey "types"]) (messages st3)).
  { eapply countAt_extends; [apply (conditionsDefault_extends (fun _ => True)) | | exact H4].
    intros m [Hr _]. left. exact Hr. }
  rewrite (checkTypes_default_ext info fields base ext dext t st1 Hd Ht Hext) in H2.
  rewrite E4, E3, <- E1.
  destruct (String.eqb t (base ++ ".d." ++ dext)); injection H2 as <-; cbn [messages].
  - rewrite countAt_app, countAt_single. reflexivity.
  - lia.
Qed.

(** ** Ordering *)

Section Ordering.

Local Abbreviation cmp := (compareExport locale_compare).
Local Abbreviation R := (fun a b : RawExport => (cmp a b <= 0)%Z).

Lemma orderDifference_antisym (left right : list nat) (index remaining : nat) :
  orderDifference right left index remaining = (- orderDifference left right index remaining)%Z.
Proof.
  revert index. induction remaining as [|remaining IH]; intros index; simpl; [reflexivity|].
  destruct (Z.eqb (Z.of_nat (nth index left 0%nat) - Z.of_nat (nth index right 0%nat)) 0) eqn:E;
  destruct (Z.eqb (Z.of_nat (nth index right 0%nat) - Z.of_nat (nth index left 0%nat)) 0) eqn:E';
  rewrite ?Z.eqb_eq, ?Z.eqb_neq in E, E'; try lia.
  apply IH.
Qed.

Lemma compareExport_flip (x y : RawExport) :
  ((0 < locale_compare (specifier x) (specifier y))%Z ->
   (locale_compare (specifier y) (specifier x) <= 0)%Z) ->
  (0 < cmp x y)%Z -> (cmp y x <= 0)%Z.
Proof.
  intros Hloc. unfold compareExport.
  rewrite (Nat.max_comm (List.length (jsonPathOrder y))).
  rewrite (orderDifference_antisym (jsonPathOrder x) (jsonPathOrder y)).
  remember (orderDifference (jsonPathOrder x) (jsonPathOrder y) 0
              (Nat.max (List.length (jsonPathOrder x)) (List.length (jsonPathOrder y)))) as d.
  destruct (Z.eqb d 0) eqn:Ed; rewrite ?Z.eqb_eq, ?Z.eqb_neq in Ed; simpl.
  - rewrite Ed. simpl.
    set (sx := Z.of_nat (List.length (split "/" (specifier x)))).
    set (sy := Z.of_nat (List.length (split "/" (specifier y)))).
    destruct (Z.eqb (sx - sy) 0) eqn:Es; destruct (Z.eqb (sy - sx) 0) eqn:Es';
      rewrite ?Z.eqb_eq, ?Z.eqb_neq in Es, Es'; simpl; try lia.
  - destruct (Z.eqb (- d) 0) eqn:Ed'; rewrite ?Z.eqb_eq, ?Z.eqb_neq in Ed'; simpl; lia.
Qed.

Lemma In_insertExport (x z : RawExport) (l : list RawExport) :
  In z (insertExport locale_compare x l) <-> x = z \/ In z l.
Proof.
  induction l as [|y l IH]; simpl; [tauto|].
  destruct (cmp x y <=? 0)%Z; simpl; [tauto|]. rewrite IH. tauto.
Qed.

Lemma In_sortExports (z : RawExport) (l : list RawExport) :
  In z (sortExports locale_compare l) <-> In z l.
Proof.
  induction l as [|x l IH]; simpl; [tauto|]. rewrite In_insertExport, IH. tauto.
Qed.

Lemma HdRel_insertExport (x y : RawExport) (l : list RawExport) :
  HdRel R y l -> R y x -> HdRel R y (insertExport locale_compare x l).
Proof.
  intros Hhd Hyx. destruct l as [|z l]; simpl.
  - constructor. exact Hyx.
  - destruct (cmp x z <=? 0)%Z; constructor; [exact Hyx | now inversion Hhd].
Qed.

Lemma Sorted_insertExport (x : RawExport) (l : list RawExport) :
  (forall y, In y l ->
     (0 < locale_compare (specifier x) (specifier y))%Z ->
     (locale_compare (specifier y) (specifier x) <= 0)%Z) ->
  Sorted R l -> Sorted R (insertExport locale_compare x l).
Proof.
  induction l as [|y l IH]; intros Hloc Hs; simpl.
  - repeat constructor.
  - destruct (cmp x y <=? 0)%Z eqn:Hxy.
    + constructor; [exact Hs | constructor; now apply Z.leb_le].
    + apply Sorted_inv in Hs as [Hs Hhd].
      constructor.
      * apply IH; [intros z Hz; apply Hloc; now right | exact Hs].
      * apply HdRel_insertExport; [exact Hhd|].
        apply compareExport_flip; [apply Hloc; now left|].
        apply Z.leb_gt in Hxy. exact Hxy.
Qed.

Lemma Sorted_sortExports (l : list RawExport) :
  localeConsistentOn locale_compare l = true ->
  Sorted R (sortExports locale_compare l).
Proof.
  unfold localeConsistentOn. rewrite forallb_forall.
  induction l as [|x l IH]; intros Hall; simpl; [constructor|].
  apply Sorted_insertExport.
  - intros y Hy Hpos. rewrite In_sortExports in Hy.
    specialize (Hall x (or_introl eq_refl)). rewrite forallb_forall in Hall.
    specialize (Hall y (or_intror Hy)).
    apply orb_true_iff in Hall as [H|H].
    + apply negb_true_iff, Z.ltb_ge in H. lia.
    + apply Z.leb_le in H. exact H.
  - apply IH. intros a Ha. specialize (Hall a (or_intror Ha)).
    rewrite forallb_forall in Hall |- *. intros b Hb. apply Hall. now right.
Qed.

Lemma sortExports_sorted_id (l : list RawExport) :
  Sorted R l -> sortExports locale_compare l = l.
Proof.
  induction l as [|x l IH]; intros Hs; simpl; [reflexivity|].
  apply Sorted_inv in Hs as [Hs Hhd]. rewrite (IH Hs).
  destruct l as [|y l]; simpl; [reflexivity|].
  inversion Hhd as [|? ? Hxy]; subst.
  apply Z.leb_le in Hxy. rewrite Hxy. reflexivity.
Qed.

Lemma localeConsistentOn_sort (l : list RawExport) :
  localeConsistentOn locale_compare (sortExports locale_compare l)
  = localeConsistentOn locale_compare l.
Proof.
  unfold localeConsistentOn.
  generalize (fun a b : RawExport =>
                negb (0 <? locale_compare (specifier a) (specifier b))%Z
                || (locale_compare (specifier b) (specifier a) <=? 0)%Z).
  intros f. apply eq_true_iff_eq. rewrite !forallb_forall.
  split; intros H a Ha; apply forallb_forall; intros b Hb.
  - exact (proj1 (forallb_forall _ _) (H a (proj2 (In_sortExports a l) Ha)) b
             (proj2 (In_sortExports b l) Hb)).
  - exact (proj1 (forallb_forall _ _) (H a (proj1 (In_sortExports a l) Ha)) b
             (proj1 (In_sortExports b l) Hb)).
Qed.

Lemma ends_in_sort (b a : M) :
  (forall s st, a s = Some st -> exists s1, exports st = sortExports locale_compare (exports s1)) ->
  forall s st, (b ;; a) s = Some st ->
  exists s1, exports st = sortExports locale_compare (exports s1).
Proof.
  intros Ha s st. unfold andThen. destruct (b s) as [s'|]; [apply Ha | discriminate].
Qed.

Lemma packageExportsState_sorted_form (pj : PackageJson) (st : State) :
  packageExportsState packagedFiles on_disk minimatch_match locale_compare pj = Some st ->
  exists s1, exports st = sortExports locale_compare (exports s1).
Proof.
  intros H. unfold packageExportsState in H.
  do 5 (refine (ends_in_sort _ _ _ _ _ H); clear H st; intros ? st H).
  unfold sortPass in H. injection H as <-. eexists; reflexivity.
Qed.

(** C7 (as amended): the final entries are sorted by [compareExport]
    (the positions of [pathOrder] compared in turn, a missing position read
    as 0, then the number of specifier segments, then [localeCompare]), and
    sorting them again changes nothing. *)
Theorem final_exports_sorted_idempotent :
  forall (pj : PackageJson) (st : State),
    packageExportsState packagedFiles on_disk minimatch_match locale_compare pj = Some st ->
    localeConsistentOn locale_compare (exports st) = true ->
    Sorted (fun a b => (compareExport locale_compare a b <= 0)%Z) (exports st)
    /\ sortExports locale_compare (exports st) = exports st.
Proof.
  intros pj st Hrun Hloc.
  destruct (packageExportsState_sorted_form pj st Hrun) as [s1 Hs1].
  rewrite Hs1 in Hloc |- *. rewrite localeConsistentOn_sort in Hloc.
  pose proof (Sorted_sortExports (exports s1) Hloc) as Hsorted.
  split; [exact Hsorted | apply sortExports_sorted_id; exact Hsorted].
Qed.

End Ordering.


Lemma all_packagedFiles (files : list string) (st : State) :
  all (map (fun file => addResolved packagedFiles on_disk (mkInfo None [] [] (Some file))
                                    true false file (Some file))
           files) st
  = Some (mkState (exports st ++ map (fun f => mkRawExport None true f true [] [] f) files)
                  (negatedExports st) (messages st)).
Proof.
  revert st. induction files as [|f fs IH]; intros st.
  - simpl. rewrite app_nil_r. destruct st; reflexivity.
  - simpl. unfold andThen, addResolved, pushExport, skip. simpl.
    rewrite IH. simpl. rewrite <- app_assoc. reflexivity.
Qed.

(** X1: resolvePackagedFiles appends one entry per shipped file, in order,
    whose specifier and file path are the file itself, marked existing and
    globbed, without conditions and at the empty JSON path; it never fails
    and adds no negation or diagnostic. *)
Theorem resolvePackagedFiles_entries (st : State) :
  resolvePackagedFiles packagedFiles on_disk st
  = Some (mkState (exports st ++ map (fun f => mkRawExport None true f true [] [] f)
                                     packagedFiles)
                  (negatedExports st) (messages st)).
Proof. apply all_packagedFiles. Qed.

Lemma filter_filter_andb {A : Type} (f g : A -> bool) (l : list A) :
  filter f (filter g l) = filter (fun x => g x && f x) l.
Proof.
  induction l as [|x l IH]; simpl; [reflexivity|].
  destruct (g x); simpl; [destruct (f x); simpl; rewrite IH; reflexivity | exact IH].
Qed.

Lemma removeNegated_eq (n : NegatedExport) (st : State) :
  removeNegated n st
  = let st1 := mkState (filter (fun e => negb (negationMatches n e)) (exports st))
                       (negatedExports st) (messages st) in
    if existsb (negationMatches n) (exports st) then Some st1
    else message_ "exports-negated-missing" (n_jsonPath n) [n_specifier n] st1.
Proof. unfold removeNegated. rewrite spliceMatching_filter. reflexivity. Qed.

Lemma all_removeNegated (ns : list NegatedExport) (st : State) :
  exists st',
    all (map removeNegated ns) st = Some st'
    /\ exports st' = filter (fun e => forallb (fun n => negb (negationMatches n e)) ns)
                            (exports st)
    /\ negatedExports st' = negatedExports st
    /\ exists nm, messages st' = (messages st ++ nm)%list
       /\ Forall (fun m => ruleId m = "exports-negated-missing"
                           /\ exists n, In n ns /\ place m = n_jsonPath n
                                        /\ args m = [n_specifier n]) nm.
Proof.
  revert st. induction ns as [|n ns IH]; intros st.
  - exists st. simpl. split; [reflexivity|].
    split; [|split; [reflexivity|exists []; rewrite app_nil_r; split; [reflexivity|constructor]]].
    induction (exports st) as [|e l IHl]; simpl; [reflexivity|]. f_equal. exact IHl.
  - cbn [map all]. unfold andThen. rewrite removeNegated_eq. cbv beta iota zeta.
    set (st1 := mkState (filter (fun e => negb (negationMatches n e)) (exports st))
                        (negatedExports st) (messages st)).
    destruct (existsb (negationMatches n) (exports st)); cbv beta iota.
    + destruct (IH st1) as (st' & E & Hex & Hneg & nm & Hm & F).
      exists st'. rewrite E. split; [reflexivity|].
      split; [rewrite Hex; simpl; apply filter_filter_andb|].
      split; [exact Hneg|]. exists nm. split; [exact Hm|].
      eapply Forall_impl; [|exact F].
      intros m [Hr (n' & Hn' & Hp)]. split; [exact Hr|]. exists n'. split; [right|]; assumption.
    + unfold message_. simpl.
      match goal with |- context [all _ ?s] => destruct (IH s) as (st' & E & Hex & Hneg & nm & Hm & F) end.
      exists st'. rewrite E. split; [reflexivity|].
      split; [rewrite Hex; simpl; apply filter_filter_andb|].
      split; [exact Hneg|].
      exists (mkMessage "exports-negated-missing" (n_jsonPath n) [n_specifier n] :: nm).
      rewrite Hm. simpl. rewrite <- app_assoc. split; [reflexivity|].
      constructor.
      * split; [reflexivity|]. exists n. split; [left; reflexivity|]. split; reflexivity.
      * eapply Forall_impl; [|exact F].
        intros m [Hr (n' & Hn' & Hp)]. split; [exact Hr|]. exists n'. split; [right|]; assumption.
Qed.

(** X2: The negation pass always succeeds; it keeps exactly the entries that
    no negation matches, leaves the negations unchanged, and emits only
    exports-negated-missing diagnostics, each at a negation's path with that
    negation's specifier. *)
Theorem negationPass_keeps_unmatched (st : State) :
  exists st',
    negationPass st = Some st'
    /\ exports st' = filter (fun e => forallb (fun n => negb (negationMatches n e))
                                              (negatedExports st))
                            (exports st)
    /\ negatedExports st' = negatedExports st
    /\ exists nm, messages st' = (messages st ++ nm)%list
       /\ Forall (fun m => ruleId m = "exports-negated-missing"
                           /\ exists n, In n (negatedExports st) /\ place m = n_jsonPath n
                                        /\ args m = [n_specifier n]) nm.
Proof. unfold negationPass. apply all_removeNegated. Qed.

Lemma Permutation_insertExport (x : RawExport) (l : list RawExport) :
  Permutation (insertExport locale_compare x l) (x :: l).
Proof.
  induction l as [|y l IH]; simpl; [reflexivity|].
  destruct (compareExport locale_compare x y <=? 0)%Z; [reflexivity|].
  rewrite IH. apply perm_swap.
Qed.

(** X3: Sorting the entries gives a permutation of them: nothing is lost or
    duplicated. *)
Theorem sortExports_permutation (l : list RawExport) :
  Permutation (sortExports locale_compare l) l.
Proof.
  induction l as [|x l IH]; simpl; [reflexivity|].
  rewrite Permutation_insertExport, IH. reflexivity.
Qed.

Lemma dotsMixed_fold_from (keys : list string) (d mixed : bool) :
  fold_left dotsStep keys (Some d, mixed)
  = (Some d, mixed || negb (forallb (fun k => Bool.eqb d (startsWith k ".")) keys)).
Proof.
  revert mixed. induction keys as [|k keys IH]; intros mixed; simpl.
  - rewrite orb_false_r. reflexivity.
  - destruct (Bool.eqb d (startsWith k ".")); simpl; rewrite IH; [reflexivity|].
    rewrite orb_true_r. reflexivity.
Qed.

Lemma dotsMixed_eq (keys : list string) :
  dotsMixed keys
  = match keys with
    | [] => (None, false)
    | k :: _ => (Some (startsWith k "."),
                 negb (forallb (fun k' => Bool.eqb (startsWith k ".") (startsWith k' ".")) keys))
    end.
Proof.
  unfold dotsMixed. destruct keys as [|k keys]; [reflexivity|].
  simpl. rewrite dotsMixed_fold_from. simpl. rewrite eqb_reflx. reflexivity.
Qed.

(** X4: The dots/mixed loop of resolveExportsObject: no keys give no
    classification and not mixed; otherwise dots is whether the first key
    starts with [.], and mixed is whether some key disagrees with the first
    on that. *)
Theorem dotsMixed_classifies (keys : list string) :
  dotsMixed keys
  = match keys with
    | [] => (None, false)
    | k :: _ => (Some (startsWith k "."),
                 negb (forallb (fun k' => Bool.eqb (startsWith k ".") (startsWith k' ".")) keys))
    end.
Proof. apply dotsMixed_eq. Qed.

Lemma conditionsDefault_empty_last (info : Info) (keys : list string) (st : State) :
  conditionsDefault info (keys ++ [""]) st = None.
Proof.
  unfold conditionsDefault. rewrite map_app. simpl.
  rewrite last_last. reflexivity.
Qed.

Lemma dotsMixed_conditions (keys : list string) :
  keys <> [] -> Forall (fun k => startsWith k "." = false) keys ->
  dotsMixed keys = (Some false, false).
Proof.
  intros Hne Hk. rewrite dotsMixed_eq. destruct keys as [|k rest]; [contradiction|].
  inversion Hk as [|? ? Hk0 _]. subst. rewrite Hk0.
  replace (forallb _ (k :: rest)) with true; [reflexivity|].
  symmetry. apply forallb_forall. intros k' Hk'. rewrite Forall_forall in Hk.
  rewrite (Hk k' Hk'). reflexivity.
Qed.

(** X5: A conditions object (no key starts with [.]) whose last key is the
    empty string makes the walk fail, at the assert on the last key of
    resolveExportsConditions. *)
Theorem conditions_empty_last_key_rejects (info : Info) (fields : list (string * json))
    (value : json) (st : State) :
  Forall (fun kv => startsWith (fst kv) "." = false) fields ->
  resolve info (JObject (fields ++ [("", value)])) st = None.
Proof.
  intros Hk. cbn [resolveExports]. unfold resolveExportsObject. cbv zeta.
  rewrite dotsMixed_conditions.
  - cbv beta iota. rewrite andb_false_l.
    unfold resolveExportsConditions, andThen. cbv zeta.
    destruct (when _ _ st) as [s1|]; [|reflexivity].
    destruct (checkTypes _ _ s1) as [s2|]; [|reflexivity].
    destruct (conditionsLoop _ _ _ _ s2) as [s3|]; [|reflexivity].
    rewrite map_app. apply conditionsDefault_empty_last.
  - rewrite map_app. destruct (map fst fields); discriminate.
  - rewrite map_app. apply Forall_app. split.
    + apply Forall_map. exact Hk.
    + constructor; [reflexivity | constructor].
Qed.


Ltac in_list := repeat (first [left; reflexivity | right]).

Lemma resolveMainField_cases (main type_ : option json) :
  match resolveMainField packagedFiles main type_ with
  | (diag, warned, found) =>
      (diag = skip /\ warned = false /\ found = None)
      \/ ((exists r values, diag = message_ r [SKey "main"] values /\ In r mainRules)
          /\ (forall f, found = Some f -> In f packagedFiles))
  end.
Proof.
  unfold resolveMainField. destruct main as [j|]; [|left; auto].
  destruct j as [| | | m | |];
    try (right; split; [do 2 eexists; split; [reflexivity | apply includes_In; reflexivity]
                       | discriminate]).
  cbv zeta. destruct (includes packagedFiles _) eqn:Ei.
  - right. split; [do 2 eexists; split; [reflexivity | apply includes_In; reflexivity]|].
    intros f E. injection E as <-. apply includes_In. exact Ei.
  - destruct (find _ _) as [found|] eqn:Ef.
    + apply find_some in Ef. destruct Ef as [_ Hf].
      destruct type_ as [[| | | t | |]|];
      repeat match goal with |- context [match ?x with _ => _ end] => is_var x; destruct x end;
      (right; split; [do 2 eexists; split; [reflexivity | apply includes_In; reflexivity]
                     | intros f E; first [discriminate | injection E as <-;
                                                          apply includes_In; exact Hf]]).
    + right. split; [do 2 eexists; split; [reflexivity | apply includes_In; reflexivity]
                    | discriminate].
Qed.

Lemma addResolved_known (info : Info) (explicitlyDefined : bool) (spec v : string)
    (st : State) :
  addResolved packagedFiles on_disk info true explicitlyDefined spec (Some v) st
  = Some (mkState (exports st ++ [mkRawExport (i_conditions info) true v
                                   (negb explicitlyDefined) (i_path info)
                                   (i_pathOrder info) spec])
                  (negatedExports st) (messages st)).
Proof. reflexivity. Qed.

Lemma resolveMainExport_shape (main type_ : option json) (st : State) :
  exists st' added nm,
    resolveMainExport packagedFiles on_disk main type_ st = Some st'
    /\ exports st' = (exports st ++ added)%list
    /\ negatedExports st' = negatedExports st
    /\ messages st' = (messages st ++ nm)%list
    /\ Forall (fun m => In (ruleId m) mainRules) nm
    /\ (added = [] /\ nm <> []
        \/ exists e, added = [e] /\ specifier e = "." /\ exists_ e = true
                     /\ conditions e = None /\ In (filePath e) packagedFiles).
Proof.
  unfold resolveMainExport. pose proof (resolveMainField_cases main type_) as Hc.
  destruct (resolveMainField packagedFiles main type_) as [[diag warned] found].
  assert (Hdef : forall s,
    exists st' added nm,
      (match find (includes packagedFiles) mainDefaults with
       | Some f => message_ "main-inferred" [] [f] ;;
                   addResolved packagedFiles on_disk (mkInfo None [] [] None) true false "."
                               (Some f)
       | None => skip
       end) s = Some st'
      /\ exports st' = (exports s ++ added)%list
      /\ negatedExports st' = negatedExports s
      /\ messages st' = (messages s ++ nm)%list
      /\ Forall (fun m => In (ruleId m) mainRules) nm
      /\ (added = [] /\ find (includes packagedFiles) mainDefaults = None /\ nm = []
          \/ exists e, added = [e] /\ specifier e = "." /\ exists_ e = true
                       /\ conditions e = None /\ In (filePath e) packagedFiles)).
  { intros s. destruct (find (includes packagedFiles) mainDefaults) as [f|] eqn:Ef.
    - apply find_some in Ef. destruct Ef as [_ Hf]. apply includes_In in Hf.
      unfold andThen, message_. rewrite addResolved_known. simpl.
      do 3 eexists. split; [reflexivity|]. split; [reflexivity|]. split; [reflexivity|].
      split; [reflexivity|]. split; [repeat constructor; apply includes_In; reflexivity|].
      right. eexists. split; [reflexivity|]. simpl. repeat split; exact Hf.
    - exists s, [], []. rewrite !app_nil_r. repeat split; auto. }
  destruct Hc as [(-> & -> & ->) | ((r & values & -> & Hr) & Hfound)].
  - unfold andThen, skip at 1. destruct (find (includes packagedFiles) mainDefaults) as [f|] eqn:Ef.
    + destruct (Hdef st) as (st' & added & nm & E & H1 & H2 & H3 & H4 & H5).
      try rewrite Ef in E. exists st', added, nm. repeat split; try assumption.
      destruct H5 as [(_ & E' & _)|H5]; [congruence | right; exact H5].
    + simpl. unfold message_. do 3 eexists. split; [reflexivity|]. simpl.
      split; [rewrite app_nil_r; reflexivity|]. split; [reflexivity|]. split; [reflexivity|].
      split; [repeat constructor; apply includes_In; reflexivity|].
      left. split; [reflexivity | discriminate].
  - unfold andThen at 1, message_ at 1. cbv beta iota.
    set (s := mkState (exports st) (negatedExports st)
                      (messages st ++ [mkMessage r [SKey "main"] values])).
    assert (Hm : Forall (fun m => In (ruleId m) mainRules) [mkMessage r [SKey "main"] values])
      by (constructor; [exact Hr | constructor]).
    destruct found as [f|].
    + specialize (Hfound f eq_refl). rewrite addResolved_known.
      do 3 eexists. split; [reflexivity|]. split; [reflexivity|]. split; [reflexivity|].
      split; [reflexivity|]. split; [exact Hm|].
      right. eexists. split; [reflexivity|]. simpl. repeat split; exact Hfound.
    + destruct (find (includes packagedFiles) mainDefaults) as [f|] eqn:Ef.
      * destruct (Hdef s) as (st' & added & nm & E & H1 & H2 & H3 & H4 & H5).
        try rewrite Ef in E. exists st', added, ([mkMessage r [SKey "main"] values] ++ nm)%list.
        split; [exact E|]. split; [exact H1|]. split; [exact H2|].
        split; [rewrite H3; simpl; rewrite <- app_assoc; reflexivity|].
        split; [apply Forall_app; split; assumption|].
        destruct H5 as [(_ & E' & _)|H5]; [congruence | right; exact H5].
      * destruct warned; simpl; unfold message_, skip; simpl.
        -- do 3 eexists. split; [reflexivity|]. simpl.
           split; [rewrite app_nil_r; reflexivity|]. split; [reflexivity|].
           split; [reflexivity|]. split; [exact Hm|].
           left. split; [reflexivity | discriminate].
        -- do 3 eexists. split; [reflexivity|]. simpl.
           split; [rewrite app_nil_r; reflexivity|]. split; [reflexivity|].
           split; [rewrite <- app_assoc; reflexivity|].
           split; [constructor; [exact Hr | constructor; [in_list | constructor]]|].
           left. split; [reflexivity | discriminate].
Qed.

(** X6: resolveMainExport always succeeds and leaves the negations
    unchanged; it either appends exactly one entry, for [.], existing,
    without conditions, whose file is shipped, or appends no entry and at
    least one diagnostic. *)
Theorem resolveMainExport_at_most_one_entry (main type_ : option json) (st : State) :
  exists st',
    resolveMainExport packagedFiles on_disk main type_ st = Some st'
    /\ negatedExports st' = negatedExports st
    /\ ((exists e, exports st' = (exports st ++ [e])%list
                   /\ specifier e = "." /\ exists_ e = true /\ conditions e = None
                   /\ In (filePath e) packagedFiles)
        \/ (exports st' = exports st
            /\ List.length (messages st) < List.length (messages st'))).
Proof.
  destruct (resolveMainExport_shape main type_ st)
    as (st' & added & nm & E & H1 & H2 & H3 & _ & H5).
  exists st'. split; [exact E|]. split; [exact H2|].
  destruct H5 as [(-> & Hnm) | (e & -> & He)].
  - right. rewrite H1, app_nil_r. split; [reflexivity|].
    rewrite H3, length_app. destruct nm; [contradiction | simpl; lia].
  - left. exists e. split; [exact H1 | exact He].
Qed.


Lemma name_check_extends (pj : PackageJson) :
  extends (fun _ => False) (fun m => In (ruleId m) headerRules)
          (match pj_name pj with
           | Some (JString _) => skip
           | _ => message_ "name-missing" [] []
           end).
Proof.
  destruct (pj_name pj) as [[| | | n | |]|];
    first [apply extends_skip | apply extends_message; simpl; in_list].
Qed.

Lemma type_check_extends (pj : PackageJson) :
  extends (fun _ => False) (fun m => In (ruleId m) headerRules)
          (match pj_type pj with
           | None => message_ "type-missing" [] []
           | Some t =>
               if falsy t then message_ "type-missing" [] []
               else match t with
                    | JString "commonjs" | JString "module" => skip
                    | _ => message_ "type-invalid" [SKey "type"] []
                    end
           end).
Proof.
  destruct (pj_type pj) as [t|]; [|apply extends_message; simpl; in_list].
  destruct (falsy t); [apply extends_message; simpl; in_list|].
  destruct t as [| | | t | |];
    repeat match goal with |- context [match ?x with _ => _ end] => is_var x; destruct x end;
    first [apply extends_skip | apply extends_message; simpl; in_list].
Qed.

Lemma files_check_extends (files : bool) :
  extends (fun _ => False) (fun m => In (ruleId m) headerRules)
          (when (negb files) (message_ "files-missing" [] [])).
Proof. apply extends_when, extends_message. simpl. in_list. Qed.

(** The three checks at the top of [packageExports] add diagnostics of
    [headerRules] only. *)
Lemma header_state (pj : PackageJson) (s1 s2 s3 : State) :
  (match pj_name pj with
   | Some (JString _) => skip
   | _ => message_ "name-missing" [] []
   end) (mkState [] [] []) = Some s1 ->
  (match pj_type pj with
   | None => message_ "type-missing" [] []
   | Some t =>
       if falsy t then message_ "type-missing" [] []
       else match t with
            | JString "commonjs" | JString "module" => skip
            | _ => message_ "type-invalid" [SKey "type"] []
            end
   end) s1 = Some s2 ->
  when (negb (pj_files pj)) (message_ "files-missing" [] []) s2 = Some s3 ->
  exports s3 = [] /\ Forall (fun m => In (ruleId m) headerRules) (messages s3).
Proof.
  intros H1 H2 H3.
  assert (Hnil : forall l : list RawExport, Forall (fun _ => False) l -> l = []).
  { intros l Hl. destruct Hl as [|x l Hx _]; [reflexivity | contradiction]. }
  destruct (name_check_extends pj _ _ H1) as (ne1 & nn1 & nm1 & E1 & _ & M1 & F1 & G1).
  destruct (type_check_extends pj _ _ H2) as (ne2 & nn2 & nm2 & E2 & _ & M2 & F2 & G2).
  destruct (files_check_extends (pj_files pj) _ _ H3)
    as (ne3 & nn3 & nm3 & E3 & _ & M3 & F3 & G3).
  rewrite E3, E2, E1, M3, M2, M1, (Hnil _ F1), (Hnil _ F2), (Hnil _ F3).
  split; [reflexivity|]. simpl. apply Forall_app; split; [apply Forall_app; split|]; assumption.
Qed.


Lemma npm_pass_silent (files : bool) (st : State) :
  Forall (fun e => exists_ e = true /\ In (filePath e) packagedFiles) (exports st) ->
  npmIgnoredPass packagedFiles files st = Some st.
Proof.
  intros Hall. unfold npmIgnoredPass. rewrite all_npm_messages.
  replace (filter _ (exports st)) with (@nil RawExport).
  - simpl. rewrite app_nil_r. destruct st; reflexivity.
  - induction Hall as [|e l [He Hf] _ IH]; simpl; [reflexivity|].
    rewrite He. apply includes_In in Hf. rewrite Hf. exact IH.
Qed.

(** Without [exports]: the run is the header, [resolveMainExport],
    [resolvePackagedFiles], a silent npm pass and the sort. *)
Lemma without_exports_run (pj : PackageJson) (st : State) :
  pj_exports pj = None ->
  packageExportsState packagedFiles on_disk minimatch_match locale_compare pj = Some st ->
  exists s3 s4 added nm,
    exports s3 = [] /\ Forall (fun m => In (ruleId m) headerRules) (messages s3)
    /\ resolveMainExport packagedFiles on_disk (pj_main pj) (pj_type pj) s3 = Some s4
    /\ exports s4 = added /\ messages s4 = (messages s3 ++ nm)%list
    /\ Forall (fun m => In (ruleId m) mainRules) nm
    /\ (added = [] \/ exists e, added = [e] /\ specifier e = "." /\ exists_ e = true
                               /\ conditions e = None /\ In (filePath e) packagedFiles)
    /\ exports st = sortExports locale_compare
                      (added ++ map (fun f => mkRawExport None true f true [] [] f)
                                    packagedFiles)%list
    /\ messages st = messages s4.
Proof.
  intros Hnone H. unfold packageExportsState in H. rewrite Hnone in H.
  apply andThen_Some in H as (s1 & H1 & H).
  apply andThen_Some in H as (s2 & H2 & H).
  apply andThen_Some in H as (s3 & H3 & H).
  apply andThen_Some in H as (s5 & H4 & H).
  apply andThen_Some in H4 as (s4 & H4 & H4').
  apply andThen_Some in H as (s6 & H5 & H).
  destruct (header_state pj s1 s2 s3 H1 H2 H3) as [Ex3 Mx3].
  destruct (resolveMainExport_shape (pj_main pj) (pj_type pj) s3)
    as (s4' & added & nm & E & Ex4 & _ & Mx4 & Fnm & Hadded).
  rewrite H4 in E. injection E as <-.
  rewrite Ex3 in Ex4. simpl in Ex4.
  rewrite resolvePackagedFiles_entries in H4'. injection H4' as <-.
  simpl in H5.
  rewrite npm_pass_silent in H5.
  - injection H5 as <-. unfold sortPass in H. injection H as <-. simpl.
    exists s3, s4, added, nm. repeat split; try assumption.
    + destruct Hadded as [[-> _]|(e & -> & He)]; [left; reflexivity | right; exists e; split; [reflexivity | exact He]].
    + rewrite Ex4. reflexivity.
  - simpl. rewrite Ex4. apply Forall_app. split.
    + destruct Hadded as [[-> _]|(e & -> & _ & He & _ & Hf)]; repeat constructor; assumption.
    + apply Forall_map, Forall_forall. intros f Hf. split; [reflexivity | exact Hf].
Qed.

(** X7: Without an export map, every shipped file is exported as itself, and
    every final entry is an existing, unconditioned, shipped file under
    specifier [.] or its own path. *)
Theorem without_exports_every_file_exported (pj : PackageJson) (st : State) :
  pj_exports pj = None ->
  packageExportsState packagedFiles on_disk minimatch_match locale_compare pj = Some st ->
  (forall f, In f packagedFiles -> In (mkRawExport None true f true [] [] f) (exports st))
  /\ (forall e, In e (exports st) ->
        exists_ e = true /\ conditions e = None /\ In (filePath e) packagedFiles
        /\ (specifier e = "." \/ specifier e = filePath e)).
Proof.
  intros Hnone H.
  destruct (without_exports_run pj st Hnone H)
    as (s3 & s4 & added & nm & _ & _ & _ & _ & _ & _ & Hadded & Ex & _).
  rewrite Ex. split.
  - intros f Hf. apply In_sortExports, in_or_app. right.
    apply in_map_iff. exists f. split; [reflexivity | exact Hf].
  - intros e He. apply In_sortExports, in_app_or in He. destruct He as [He|He].
    + destruct Hadded as [->|(e' & -> & Hs & Hx & Hc & Hf)]; [destruct He|].
      destruct He as [<-|[]]. repeat split; try assumption. left; exact Hs.
    + apply in_map_iff in He. destruct He as (f & <- & Hf). simpl.
      repeat split; [exact Hf|]. right. reflexivity.
Qed.

(** X8: Without an export map, every diagnostic has a rule of the header
    checks or of resolveMainExport. *)
Theorem without_exports_diagnostics (pj : PackageJson) (st : State) :
  pj_exports pj = None ->
  packageExportsState packagedFiles on_disk minimatch_match locale_compare pj = Some st ->
  Forall (fun m => In (ruleId m) (headerRules ++ mainRules)) (messages st).
Proof.
  intros Hnone H.
  destruct (without_exports_run pj st Hnone H)
    as (s3 & s4 & added & nm & _ & Mx3 & _ & _ & Mx4 & Fnm & _ & _ & Mx).
  rewrite Mx, Mx4. apply Forall_app. split.
  - eapply Forall_impl; [|exact Mx3]. intros m Hm. apply in_or_app. left. exact Hm.
  - eapply Forall_impl; [|exact Fnm]. intros m Hm. apply in_or_app. right. exact Hm.
Qed.


Lemma existsb_sortExports (f : RawExport -> bool) (l : list RawExport) :
  existsb f (sortExports locale_compare l) = existsb f l.
Proof.
  apply eq_true_iff_eq. rewrite !existsb_exists. split.
  - intros (x & Hx & Hf). exists x. split; [apply In_sortExports; exact Hx | exact Hf].
  - intros (x & Hx & Hf). exists x. split; [apply In_sortExports; exact Hx | exact Hf].
Qed.

(** X9: With an export map, exports-main-missing is emitted once at the root
    when no final entry has specifier [.], and not at all otherwise. *)
Theorem exports_main_missing_iff_no_dot (pj : PackageJson) (v : json) (st : State) :
  pj_exports pj = Some v ->
  packageExportsState packagedFiles on_disk minimatch_match locale_compare pj = Some st ->
  countAt "exports-main-missing" [] (messages st)
  = if existsb (fun e => String.eqb (specifier e) ".") (exports st) then 0 else 1.
Proof.
  intros Hsome H. unfold packageExportsState in H. rewrite Hsome in H.
  apply andThen_Some in H as (s1 & H1 & H).
  apply andThen_Some in H as (s2 & H2 & H).
  apply andThen_Some in H as (s3 & H3 & H).
  apply andThen_Some in H as (s7 & H4 & H).
  apply andThen_Some in H as (s8 & H8 & H).
  cbv beta iota in H4.
  apply andThen_Some in H4 as (s4 & Hw & H4).
  apply andThen_Some in H4 as (s5 & Hn & H4).
  apply andThen_Some in H4 as (s6 & Hc & H7).
  destruct (header_state pj s1 s2 s3 H1 H2 H3) as [_ Mx3].
  assert (C3 : countAt "exports-main-missing" [] (messages s3) = 0).
  { apply countAt_none. eapply Forall_impl; [|exact Mx3]. intros m Hm. left. intros E.
    apply includes_In in Hm. rewrite E in Hm. vm_compute in Hm. discriminate. }
  assert (C4 : countAt "exports-main-missing" [] (messages s4) = 0).
  { rewrite <- C3. eapply countAt_extends; [apply walk_extends | | exact Hw].
    intros m [[rest Hrest] _]. right. rewrite Hrest. discriminate. }
  destruct (all_removeNegated (negatedExports s4) s4) as (s5' & E5 & Ex5 & _ & nm & Mx5 & F5).
  unfold negationPass in Hn. rewrite Hn in E5. injection E5 as <-.
  assert (C5 : countAt "exports-main-missing" [] (messages s5) = 0).
  { rewrite Mx5, countAt_app, C4, countAt_none; [reflexivity|].
    eapply Forall_impl; [|exact F5]. intros m [Hr _]. left. rewrite Hr. discriminate. }
  assert (Hs : exports s8 = exports s6
               /\ countAt "exports-main-missing" [] (messages s8)
                  = countAt "exports-main-missing" [] (messages s6)).
  { assert (Hs7 : exports s7 = exports s6
                  /\ countAt "exports-main-missing" [] (messages s7)
                     = countAt "exports-main-missing" [] (messages s6)).
    { destruct (pj_main pj); [|injection H7 as <-; split; reflexivity].
      injection H7 as <-. simpl. split; [reflexivity|].
      rewrite countAt_app, (countAt_none _ _ [_]); [lia|]. constructor; [right; discriminate | constructor]. }
    unfold npmIgnoredPass in H8. rewrite all_npm_messages in H8. injection H8 as <-.
    simpl. destruct Hs7 as [Ex7 Cx7]. split; [exact Ex7|].
    rewrite countAt_app, Cx7, (countAt_none _ _ (map _ _)); [lia|].
    apply Forall_forall. intros m Hm. apply in_map_iff in Hm.
    destruct Hm as (e & <- & _). left. discriminate. }
  unfold sortPass in H. injection H as <-. simpl.
  rewrite existsb_sortExports. destruct Hs as [-> ->].
  unfold mainSpecifierCheck in Hc.
  destruct (existsb (fun d => String.eqb (specifier d) ".") (exports s5)) eqn:Ed.
  - injection Hc as <-. rewrite Ed. exact C5.
  - injection Hc as <-. simpl. rewrite Ed, countAt_app, C5. reflexivity.
Qed.


Lemma entryUnder_here (info : Info) (b : bool) (f : string) (g : bool) (spec : string) :
  entryUnder info (mkRawExport (i_conditions info) b f g (i_path info) (i_pathOrder info) spec).
Proof.
  exists [], []. rewrite !app_nil_r. repeat split. intros c Hc. left. exact Hc.
Qed.

Lemma entryUnder_child (info : Info) (c : option (list string)) (step : segment)
    (index : nat) (spec : option string) (e : RawExport) :
  (forall x, In x (optList c) -> In x (optList (i_conditions info)) \/ SKey x = step) ->
  entryUnder (childInfo info c step index spec) e -> entryUnder info e.
Proof.
  intros Hc (q & q' & Ep & Eo & Hl & Hq). simpl in *.
  exists (step :: q), (index :: q'). rewrite <- !app_assoc in *.
  split; [exact Ep|]. split; [exact Eo|]. split; [simpl; lia|].
  intros x Hx. destruct (Hq x Hx) as [H|H].
  - destruct (Hc x H) as [H'|H']; [left; exact H' | right; left; symmetry; exact H'].
  - right. right. exact H.
Qed.

Lemma addValue_info (P : RawExport -> Prop) (info : Info) (v : json) :
  (forall b f g spec, P (mkRawExport (i_conditions info) b f g (i_path info)
                                     (i_pathOrder info) spec)) ->
  extends P (fun _ => True) (addValue packagedFiles on_disk minimatch_match info v).
Proof.
  intros HP.
  assert (HR : forall d x spec value,
             extends P (fun _ => True)
                     (addResolved packagedFiles on_disk info d x spec value)).
  { intros. eapply extends_mono; [intros y Hy; exact Hy | intros; exact I|].
    apply addResolved_extends. intros. apply HP. }
  assert (HD : forall before after parts,
             extends P (fun _ => True)
                     (addDynamic packagedFiles on_disk minimatch_match info before after parts)).
  { intros. eapply extends_mono; [intros y Hy; exact Hy | intros; exact I|].
    apply addDynamic_extends. intros. apply HP. }
  unfold addValue. cbv zeta.
  destruct v as [| | | s | items | fields]; try (apply extends_message; exact I).
  2: destruct (startsWith s "./"); [|apply extends_message; exact I].
  all: repeat match goal with
              | |- extends _ _ (match ?x with _ => _ end) => destruct x
              end;
       repeat first [apply HR | apply HD | apply extends_andThen
                    | apply extends_message; exact I].
Qed.

Lemma conditionsLoop_paths (info : Info) (fields : list (string * json)) (index : nat) :
  Forall (fun kv => forall info',
            extends (entryUnder info') (fun _ => True) (resolve info' (snd kv))) fields ->
  extends (entryUnder info) (fun _ => True) (conditionsLoop resolve info fields index).
Proof.
  intros H. revert index.
  induction H as [|[condition value] rest Hkv Hrest IH]; intros index; cbn [conditionsLoop].
  - apply extends_skip.
  - apply extends_andThen.
    { eapply extends_mono; [intros y Hy; exact Hy | intros; exact I|].
      apply checkExclusive_extends. }
    apply extends_andThen; [|apply IH].
    eapply extends_mono; [| intros m Hm; exact Hm | apply Hkv].
    intros e He. eapply entryUnder_child; [|exact He].
    intros x Hx. destruct (i_conditions info) as [active|]; simpl in Hx |- *.
    + apply in_app_or in Hx. destruct Hx as [Hx|[<-|[]]]; [left; exact Hx | right; reflexivity].
    + destruct Hx as [<-|[]]. right. reflexivity.
Qed.

Lemma specifiersLoop_paths (info : Info) (keys : list string)
    (fields : list (string * json)) (index : nat) :
  Forall (fun kv => forall info',
            extends (entryUnder info') (fun _ => True) (resolve info' (snd kv))) fields ->
  extends (entryUnder info) (fun _ => True) (specifiersLoop resolve info keys fields index).
Proof.
  intros H. revert index.
  induction H as [|[spec value] rest Hkv Hrest IH]; intros index; cbn [specifiersLoop].
  - apply extends_skip.
  - apply extends_andThen.
    + unfold pop. destruct (last (map Some (split "." spec)) None) as [ext|].
      * apply extends_when, extends_message. exact I.
      * apply extends_skip.
    + apply extends_andThen; [|apply IH].
      eapply extends_mono; [| intros m Hm; exact Hm | apply Hkv].
      intros e He. eapply entryUnder_child; [|exact He].
      intros x Hx. left. exact Hx.
Qed.

Lemma walk_paths (v : json) (info : Info) :
  extends (entryUnder info) (fun _ => True) (resolve info v).
Proof.
  revert info. induction v as [v IHv] using json_ind_nested. intros info.
  destruct v as [| | | s | items | fields]; cbn [resolveExports];
    try (apply addValue_info; intros; apply entryUnder_here).
  - unfold resolveExportsList. destruct items as [|first rest].
    + apply extends_message. exact I.
    + apply extends_andThen; [apply extends_message; exact I|].
      inversion IHv as [|x xs Hfirst _]. subst.
      eapply extends_mono; [| intros m Hm; exact Hm | apply Hfirst].
      intros e He. eapply entryUnder_child; [|exact He].
      intros x Hx. left. exact Hx.
  - unfold resolveExportsObject. cbv zeta.
    destruct (dotsMixed (map fst fields)) as [[d|] mixed];
      [|apply extends_message; exact I].
    destruct mixed; [apply extends_message; exact I|].
    destruct (d && truthy (i_specifier info)); [apply extends_message; exact I|].
    destruct d.
    + unfold resolveExportsSpecifiers. cbv zeta.
      apply extends_andThen; [apply extends_when, extends_message; exact I|].
      apply specifiersLoop_paths. exact IHv.
    + unfold resolveExportsConditions. cbv zeta.
      apply extends_andThen; [apply extends_when, extends_message; exact I|].
      apply extends_andThen.
      { eapply extends_mono; [intros y Hy; exact Hy | intros; exact I|].
        apply checkTypes_extends. }
      apply extends_andThen; [apply conditionsLoop_paths; exact IHv|].
      eapply extends_mono; [intros y Hy; exact Hy | intros; exact I|].
      apply conditionsDefault_extends.
Qed.

(** X10: With an export map, every final entry lies under the [exports] key:
    its JSON path starts with [exports], its path order with 0, both have
    the same length, and each of its conditions is a key on its JSON path. *)
Theorem exports_entries_under_exports (pj : PackageJson) (v : json) (st : State) :
  pj_exports pj = Some v ->
  packageExportsState packagedFiles on_disk minimatch_match locale_compare pj = Some st ->
  forall e, In e (exports st) ->
    exists q q', jsonPath e = SKey "exports" :: q /\ jsonPathOrder e = 0 :: q'
                 /\ List.length q = List.length q'
                 /\ forall c, In c (optList (conditions e)) -> In (SKey c) q.
Proof.
  intros Hsome H. unfold packageExportsState in H. rewrite Hsome in H.
  apply andThen_Some in H as (s1 & H1 & H).
  apply andThen_Some in H as (s2 & H2 & H).
  apply andThen_Some in H as (s3 & H3 & H).
  apply andThen_Some in H as (s7 & H4 & H).
  apply andThen_Some in H as (s8 & H8 & H).
  cbv beta iota in H4.
  apply andThen_Some in H4 as (s4 & Hw & H4).
  apply andThen_Some in H4 as (s5 & Hn & H4).
  apply andThen_Some in H4 as (s6 & Hc & H7).
  destruct (header_state pj s1 s2 s3 H1 H2 H3) as [Ex3 _].
  destruct (walk_paths v rootInfo s3 s4 Hw) as (ne & _ & _ & Ex4 & _ & _ & F4 & _).
  rewrite Ex3 in Ex4. simpl in Ex4.
  destruct (all_removeNegated (negatedExports s4) s4) as (s5' & E5 & Ex5 & _).
  unfold negationPass in Hn. rewrite Hn in E5. injection E5 as <-.
  assert (Ex6 : exports s6 = exports s5).
  { unfold mainSpecifierCheck in Hc. destruct (existsb _ _); injection Hc as <-; reflexivity. }
  assert (Ex7 : exports s7 = exports s6).
  { destruct (pj_main pj); injection H7 as <-; reflexivity. }
  unfold npmIgnoredPass in H8. rewrite all_npm_messages in H8. injection H8 as <-.
  unfold sortPass in H. injection H as <-. simpl.
  intros e He. apply (proj1 (In_sortExports _ _)) in He. rewrite Ex7, Ex6, Ex5, Ex4 in He.
  apply filter_In in He. destruct He as [He _].
  rewrite Forall_forall in F4. destruct (F4 e He) as (q & q' & Ep & Eo & Hl & Hq).
  exists q, q'. split; [exact Ep|]. split; [exact Eo|]. split; [exact Hl|].
  intros c Hcond. destruct (Hq c Hcond) as [[]|H']. exact H'.
Qed.


Lemma string_length_app (a b : string) :
  String.length (a ++ b) = String.length a + String.length b.
Proof. induction a as [|c a IH]; simpl; [reflexivity | rewrite IH; reflexivity]. Qed.

Lemma string_app_empty_r (a : string) : a ++ "" = a.
Proof. induction a as [|c a IH]; simpl; [reflexivity | rewrite IH; reflexivity]. Qed.

Lemma substring_app_middle (a x c : string) :
  substring (String.length a) (String.length x) (a ++ x ++ c) = x.
Proof.
  induction a as [|ch a IH]; simpl; [|exact IH].
  induction x as [|ch x IH]; simpl; [destruct c; reflexivity | rewrite IH; reflexivity].
Qed.

Lemma startsWith_app (a y : string) : startsWith (a ++ y) a = true.
Proof.
  unfold startsWith. apply prefix_correct.
  exact (substring_app_middle "" a y).
Qed.

Lemma string_app_inv_l (a x y : string) : a ++ x = a ++ y -> x = y.
Proof. induction a as [|c a IH]; simpl; [auto | intros E; injection E; exact IH]. Qed.

Lemma string_app_same_length (r x a b : string) :
  String.length r = String.length x -> r ++ a = x ++ b -> r = x.
Proof.
  revert x. induction r as [|c r IH]; intros [|d x] Hl E; simpl in *; try discriminate;
    [reflexivity|].
  injection E as -> E. f_equal. apply IH; [lia | exact E].
Qed.

Lemma concat_length (r a : string) (l : list string) :
  String.length (String.concat r (a :: l))
  = String.length (String.concat "" (a :: l)) + List.length l * String.length r.
Proof.
  revert a. induction l as [|b l IH]; intros a; [simpl; lia|].
  change (String.concat r (a :: b :: l)) with (a ++ r ++ String.concat r (b :: l)).
  change (String.concat "" (a :: b :: l)) with (a ++ "" ++ String.concat "" (b :: l)).
  rewrite !string_length_app, IH. cbn [List.length String.length]. lia.
Qed.

Lemma join_injective (first second : string) (rest : list string) (r x : string) :
  join r (first :: second :: rest) = join x (first :: second :: rest) -> r = x.
Proof.
  intros E. unfold join in E.
  assert (Hl : String.length r = String.length x).
  { apply (f_equal String.length) in E. rewrite (concat_length r), (concat_length x) in E.
    apply Nat.add_cancel_l in E. cbn [List.length] in E.
    apply Nat.mul_cancel_l in E; [exact E | discriminate]. }
  change (String.concat r (first :: second :: rest))
    with (first ++ r ++ String.concat r (second :: rest)) in E.
  change (String.concat x (first :: second :: rest))
    with (first ++ x ++ String.concat x (second :: rest)) in E.
  apply string_app_inv_l in E. exact (string_app_same_length _ _ _ _ Hl E).
Qed.

Lemma index_ge (k e : nat) (sub s : string) : String.index k sub s = Some e -> k <= e.
Proof.
  revert k e. induction s as [|ch s IH]; intros k e Ei; destruct k as [|k]; simpl in Ei.
  - lia.
  - discriminate.
  - lia.
  - destruct (String.index k sub s) as [e'|] eqn:E'; [|discriminate].
    injection Ei as <-. apply IH in E'. lia.
Qed.

Lemma scanEnds_reaches (filePath second : string) (start p : nat) :
  second <> "" -> substring p (String.length second) filePath = second ->
  forall fuel k, k <= p -> p < k + fuel ->
  In (slice filePath start p) (scanEnds fuel filePath second start (indexOf filePath second k)).
Proof.
  intros Hne Hocc fuel. induction fuel as [|fuel IH]; intros k Hk Hf; [lia|].
  unfold indexOf at 1. destruct (String.index k second filePath) as [e|] eqn:Ei.
  - simpl. assert (He : e <= p).
    { destruct (Nat.le_gt_cases e p) as [H|H]; [exact H|].
      exfalso. exact (index_correct2 _ _ _ _ Ei p Hk H Hocc). }
    destruct (Nat.eq_dec e p) as [->|Hneq]; [left; reflexivity|].
    right. apply IH; [lia|].
    pose proof (index_ge _ _ _ _ Ei).
    lia.
  - exfalso. exact (index_correct3 _ _ _ _ Ei Hne Hk Hocc).
Qed.

Lemma replacementFor_join_self (first second : string) (rest : list string) (x : string) :
  (second <> "" \/ rest = []) ->
  replacementFor (first :: second :: rest) (join x (first :: second :: rest)) = Some (Some x).
Proof.
  intros Hcase. unfold replacementFor.
  assert (Efile : join x (first :: second :: rest) = first ++ x ++ join x (second :: rest))
    by reflexivity.
  assert (Hstart : startsWith (join x (first :: second :: rest)) first = true)
    by (rewrite Efile; apply startsWith_app).
  rewrite Hstart. cbv zeta.
  remember (join x (first :: second :: rest)) as file eqn:Hfile.
  try rewrite <- Hfile in Efile. clear Hstart.
  match goal with |- context [find _ ?opts] => set (options := opts) end.
  assert (Hin : In x options).
  { subst options. destruct (String.eqb second "") eqn:Es.
    - apply String.eqb_eq in Es. subst second.
      destruct Hcase as [Hc | ->]; [contradiction|].
      simpl. left. unfold sliceFrom. rewrite Efile.
      change (join x [""]) with "". rewrite string_app_empty_r.
      rewrite string_length_app. replace (String.length first + String.length x
                                          - String.length first) with (String.length x) by lia.
      pose proof (substring_app_middle first x "") as Hs.
      rewrite string_app_empty_r in Hs. exact Hs.
    - apply String.eqb_neq in Es. apply in_or_app. left.
      assert (Htail : exists tail, join x (second :: rest) = second ++ tail).
      { destruct rest as [|r0 rest']; [exists ""; symmetry; apply string_app_empty_r|].
        exists (x ++ String.concat x (r0 :: rest')). reflexivity. }
      destruct Htail as [tail Etail].
      assert (Hslice : slice file (String.length first) (String.length first + String.length x) = x).
      { unfold slice. replace (String.length first + String.length x - String.length first)
          with (String.length x) by lia.
        rewrite Efile. apply substring_app_middle. }
      rewrite <- Hslice at 1. apply scanEnds_reaches; [exact Es| | lia |].
      + rewrite Efile, Etail, <- string_app_assoc.
        rewrite <- string_length_app. apply substring_app_middle.
      + rewrite Efile, !string_length_app. lia. }
  destruct (find (fun option => String.eqb (join option (first :: second :: rest)) file)
                 options) as [y|] eqn:Ef.
  - apply find_some in Ef. destruct Ef as [_ Ey]. apply String.eqb_eq in Ey.
    rewrite Hfile in Ey. apply join_injective in Ey. rewrite Ey. reflexivity.
  - exfalso. apply (find_none _ _ Ef) in Hin. rewrite Hfile, String.eqb_refl in Hin. discriminate.
Qed.

(** X11: findWildcardReplacements recovers the substitutions of files built
    by joining the value parts with them, when the second part is non-empty
    or there are only two parts. *)
Theorem findWildcardReplacements_recovers (first second : string) (rest xs : list string) :
  (second <> "" \/ rest = []) ->
  findWildcardReplacements (first :: second :: rest)
    (map (fun x => join x (first :: second :: rest)) xs) = Some xs.
Proof.
  intros Hcase. induction xs as [|x xs IH]; [reflexivity|].
  cbn [map findWildcardReplacements]. rewrite replacementFor_join_self by exact Hcase.
  rewrite IH. reflexivity.
Qed.


Lemma replacementFor_adjacent (first : string) (rest : list string) (x : string) :
  x <> "" -> rest <> [] ->
  replacementFor (first :: "" :: rest) (join x (first :: "" :: rest)) = Some None.
Proof.
  intros Hx Hrest. destruct rest as [|r0 rest']; [contradiction|].
  unfold replacementFor.
  assert (Efile : join x (first :: "" :: r0 :: rest')
                  = first ++ (x ++ x ++ String.concat x (r0 :: rest'))) by reflexivity.
  assert (Hstart : startsWith (join x (first :: "" :: r0 :: rest')) first = true)
    by (rewrite Efile; apply startsWith_app).
  rewrite Hstart. cbv zeta. simpl String.eqb. cbn [app].
  remember (join x (first :: "" :: r0 :: rest')) as file eqn:Hfile.
  assert (Hslice : sliceFrom file (String.length first) = x ++ x ++ String.concat x (r0 :: rest')).
  { unfold sliceFrom. rewrite Efile, string_length_app.
    replace (String.length first + String.length (x ++ x ++ String.concat x (r0 :: rest'))
             - String.length first)
      with (String.length (x ++ x ++ String.concat x (r0 :: rest'))) by lia.
    pose proof (substring_app_middle first (x ++ x ++ String.concat x (r0 :: rest')) "") as Hs.
    rewrite string_app_empty_r in Hs. exact Hs. }
  rewrite Hslice. cbn [find].
  match goal with |- context [if ?c then _ else _] => destruct c eqn:E end; [|reflexivity].
  exfalso. apply String.eqb_eq in E.
  assert (E2 : join (x ++ x ++ String.concat x (r0 :: rest')) (first :: "" :: r0 :: rest')
               = join x (first :: "" :: r0 :: rest')) by exact E.
  apply join_injective in E2.
  apply (f_equal String.length) in E2. rewrite !string_length_app in E2.
  assert (String.length x <> 0) by (destruct x; [contradiction | discriminate]). lia.
Qed.

(** X12: When a value has two adjacent asterisks followed by more parts (its
    second part is empty), files built with non-empty substitutions yield no
    replacement at all. *)
Theorem findWildcardReplacements_adjacent_asterisks (first : string) (rest xs : list string) :
  rest <> [] -> Forall (fun x => x <> "") xs ->
  findWildcardReplacements (first :: "" :: rest)
    (map (fun x => join x (first :: "" :: rest)) xs) = Some [].
Proof.
  intros Hrest Hxs. induction Hxs as [|x xs Hx _ IH]; [reflexivity|].
  cbn [map findWildcardReplacements]. rewrite replacementFor_adjacent by assumption.
  rewrite IH. reflexivity.
Qed.


Lemma countRule_app (rule : string) (l1 l2 : list message) :
  countRule rule (l1 ++ l2) = countRule rule l1 + countRule rule l2.
Proof. unfold countRule. rewrite filter_app, length_app. reflexivity. Qed.

Lemma missingCount_app (l1 l2 : list RawExport) :
  missingCount (l1 ++ l2) = missingCount l1 + missingCount l2.
Proof. unfold missingCount. rewrite filter_app, length_app. reflexivity. Qed.

Lemma balanced_skip : balanced skip.
Proof.
  intros st st' H. injection H as <-. exists [], [].
  rewrite !app_nil_r. repeat split.
Qed.

Lemma balanced_throw : balanced throw.
Proof. intros st st' H. discriminate H. Qed.

Lemma balanced_andThen (a b : M) : balanced a -> balanced b -> balanced (a ;; b).
Proof.
  intros Ha Hb st st' H. apply andThen_Some in H as (s1 & H1 & H2).
  destruct (Ha _ _ H1) as (ne1 & nm1 & E1 & M1 & C1).
  destruct (Hb _ _ H2) as (ne2 & nm2 & E2 & M2 & C2).
  exists (ne1 ++ ne2)%list, (nm1 ++ nm2)%list.
  rewrite E2, E1, M2, M1, !app_assoc. repeat split.
  rewrite countRule_app, missingCount_app. lia.
Qed.

Lemma balanced_message (rule : string) (path : list segment) (values : list string) :
  rule <> "exports-path-not-found" -> balanced (message_ rule path values).
Proof.
  intros Hr st st' H. injection H as <-. exists [], [mkMessage rule path values].
  simpl. rewrite app_nil_r. repeat split.
  unfold countRule. simpl. destruct (String.eqb rule _) eqn:E; [|reflexivity].
  apply String.eqb_eq in E. contradiction.
Qed.

Lemma balanced_pushNegated (n : NegatedExport) : balanced (pushNegated n).
Proof.
  intros st st' H. injection H as <-. exists [], [].
  simpl. rewrite !app_nil_r. repeat split.
Qed.

Lemma balanced_when (b : bool) (a : M) : balanced a -> balanced (when b a).
Proof. intros Ha. destruct b; [exact Ha | apply balanced_skip]. Qed.

Lemma balanced_all (tasks : list M) : Forall balanced tasks -> balanced (all tasks).
Proof.
  induction 1; simpl; [apply balanced_skip | apply balanced_andThen; assumption].
Qed.

Lemma balanced_addResolved (info : Info) (d x : bool) (spec : string) (value : option string) :
  balanced (addResolved packagedFiles on_disk info d x spec value).
Proof.
  destruct value as [v|]; [|apply balanced_pushNegated].
  intros st st' H. unfold addResolved, andThen, pushExport in H. cbv beta iota zeta in H.
  destruct (d || includes packagedFiles v) eqn:K.
  - injection H as <-. eexists [_], []. simpl. rewrite app_nil_r. repeat split.
  - unfold checkExists in H. simpl in H. destruct (on_disk v) eqn:O.
    + injection H as <-. eexists [_], []. simpl. rewrite app_nil_r. repeat split;
      try (unfold missingCount; simpl; rewrite O; reflexivity).
    + injection H as <-. eexists [_], [_]. simpl. repeat split;
      try (unfold missingCount; simpl; rewrite O; reflexivity).
Qed.

Lemma balanced_addDynamic (info : Info) (before after : string) (parts : list string) :
  balanced (addDynamic packagedFiles on_disk minimatch_match info before after parts).
Proof.
  unfold addDynamic. cbv zeta.
  destruct (filter (minimatch_match (join "**/*" parts)) packagedFiles) as [|f fs].
  - apply balanced_message. discriminate.
  - destruct (findWildcardReplacements parts (f :: fs)) as [replacements|];
      [|apply balanced_throw].
    apply balanced_all, Forall_forall. intros task Htask.
    apply in_map_iff in Htask. destruct Htask as (r & <- & _).
    apply balanced_addResolved.
Qed.

Lemma balanced_addValue (info : Info) (v : json) :
  balanced (addValue packagedFiles on_disk minimatch_match info v).
Proof.
  unfold addValue. cbv zeta.
  destruct v as [| | | s | items | fields]; try (apply balanced_message; discriminate).
  2: destruct (startsWith s "./"); [|apply balanced_message; discriminate].
  all: repeat match goal with
              | |- balanced (match ?x with _ => _ end) => destruct x
              end;
       repeat first [apply balanced_addResolved | apply balanced_addDynamic
                    | apply balanced_andThen
                    | apply balanced_message; discriminate].
Qed.

Lemma balanced_checkExclusive (info : Info) (condition : string) :
  balanced (checkExclusive info condition).
Proof.
  unfold checkExclusive. apply balanced_all, Forall_forall. intros task Htask.
  apply in_map_iff in Htask. destruct Htask as (exclusive & <- & _).
  destruct (i_conditions info) as [active|]; [|apply balanced_skip].
  destruct (includes (me_conditions exclusive) condition); [|apply balanced_skip].
  destruct (find (includes (me_conditions exclusive)) active); [|apply balanced_skip].
  apply balanced_message. discriminate.
Qed.

Lemma balanced_checkTypes (info : Info) (fields : list (string * json)) :
  balanced (checkTypes info fields).
Proof.
  unfold checkTypes. cbv zeta.
  destruct (_ && _); [|apply balanced_skip].
  destruct (lookup_field "default" fields) as [[| | | d | |]|]; try apply balanced_skip;
  destruct (lookup_field "types" fields) as [[| | | t | |]|]; try apply balanced_skip.
  destruct (pop (split "." d)) as [parts [ext|]]; [|apply balanced_skip].
  destruct (_ && _); [|apply balanced_skip].
  apply balanced_message. discriminate.
Qed.

Lemma balanced_conditionsDefault (info : Info) (keys : list string) :
  balanced (conditionsDefault info keys).
Proof.
  unfold conditionsDefault. cbv zeta.
  destruct (last (map Some keys) None) as [last_|]; [|apply balanced_throw].
  destruct (String.eqb last_ ""); [apply balanced_throw|].
  destruct (includes keys "default").
  - apply balanced_when, balanced_message. discriminate.
  - destruct (existsb _ _); [apply balanced_skip|].
    apply balanced_message. discriminate.
Qed.

Lemma balanced_conditionsLoop (info : Info) (fields : list (string * json)) (index : nat) :
  Forall (fun kv => forall info', balanced (resolve info' (snd kv))) fields ->
  balanced (conditionsLoop resolve info fields index).
Proof.
  intros H. revert index.
  induction H as [|[condition value] rest Hkv Hrest IH]; intros index; cbn [conditionsLoop].
  - apply balanced_skip.
  - apply balanced_andThen; [apply balanced_checkExclusive|].
    apply balanced_andThen; [apply Hkv | apply IH].
Qed.

Lemma balanced_specifiersLoop (info : Info) (keys : list string)
    (fields : list (string * json)) (index : nat) :
  Forall (fun kv => forall info', balanced (resolve info' (snd kv))) fields ->
  balanced (specifiersLoop resolve info keys fields index).
Proof.
  intros H. revert index.
  induction H as [|[spec value] rest Hkv Hrest IH]; intros index; cbn [specifiersLoop].
  - apply balanced_skip.
  - apply balanced_andThen.
    + unfold pop. destruct (last (map Some (split "." spec)) None) as [ext|].
      * apply balanced_when, balanced_message. discriminate.
      * apply balanced_skip.
    + apply balanced_andThen; [apply Hkv | apply IH].
Qed.

Lemma balanced_walk (v : json) (info : Info) : balanced (resolve info v).
Proof.
  revert info. induction v as [v IHv] using json_ind_nested. intros info.
  destruct v as [| | | s | items | fields]; cbn [resolveExports];
    try apply balanced_addValue.
  - unfold resolveExportsList. destruct items as [|first rest].
    + apply balanced_message. discriminate.
    + apply balanced_andThen; [apply balanced_message; discriminate|].
      inversion IHv as [|x xs Hfirst _]. subst. apply Hfirst.
  - unfold resolveExportsObject. cbv zeta.
    destruct (dotsMixed (map fst fields)) as [[d|] mixed];
      [|apply balanced_message; discriminate].
    destruct mixed; [apply balanced_message; discriminate|].
    destruct (d && truthy (i_specifier info)); [apply balanced_message; discriminate|].
    destruct d.
    + unfold resolveExportsSpecifiers. cbv zeta.
      apply balanced_andThen; [apply balanced_when, balanced_message; discriminate|].
      apply balanced_specifiersLoop. exact IHv.
    + unfold resolveExportsConditions. cbv zeta.
      apply balanced_andThen; [apply balanced_when, balanced_message; discriminate|].
      apply balanced_andThen; [apply balanced_checkTypes|].
      apply balanced_andThen; [apply balanced_conditionsLoop; exact IHv|].
      apply balanced_conditionsDefault.
Qed.

(** X13: During the walk of the export map, the exports-path-not-found
    diagnostics grow by exactly the number of new entries recorded as
    missing. *)
Theorem walk_reports_each_missing_entry_once (info : Info) (v : json) (st st' : State) :
  resolve info v st = Some st' ->
  exists ne, exports st' = (exports st ++ ne)%list
             /\ countRule "exports-path-not-found" (messages st')
                = countRule "exports-path-not-found" (messages st) + missingCount ne.
Proof.
  intros H. destruct (balanced_walk v info st st' H) as (ne & nm & E & M & C).
  exists ne. split; [exact E|]. rewrite M, countRule_app, C. reflexivity.
Qed.


(** X14: A [main] without the [./] prefix resolves like the same path with
    it: the same file found, the same warned flag, and a diagnostic of the
    same rule at [main]; only the values in the diagnostic differ. *)
Theorem resolveMainField_prefix_optional (m : string) (type_ : option json) :
  startsWith m "./" = false ->
  match resolveMainField packagedFiles (Some (JString m)) type_,
        resolveMainField packagedFiles (Some (JString ("./" ++ m))) type_ with
  | (d1, w1, f1), (d2, w2, f2) =>
      w1 = w2 /\ f1 = f2
      /\ exists rule values1 values2,
           d1 = message_ rule [SKey "main"] values1
           /\ d2 = message_ rule [SKey "main"] values2
  end.
Proof.
  intros Hm. unfold resolveMainField. rewrite Hm, startsWith_app. cbv zeta.
  destruct (includes packagedFiles ("./" ++ m)); [eauto 8|].
  destruct (find _ _) as [found|]; [|eauto 8].
  destruct type_ as [[| | | t | |]|]; try eauto 8.
  repeat match goal with
         | |- context [match ?x with _ => _ end] => is_var x; destruct x
         end; eauto 8.
Qed.

Lemma join_split_posix (sep : ascii) (s : string) : join "/" (split sep s) = posixChars sep s.
Proof.
  unfold join. induction s as [|c s IH]; [reflexivity|].
  cbn [split posixChars]. destruct (split_cons sep s) as (first & others & E).
  rewrite E in IH |- *. destruct (Ascii.eqb c sep).
  - simpl. rewrite <- IH. destruct others; reflexivity.
  - simpl. rewrite <- IH. destruct others; reflexivity.
Qed.

Lemma posixChars_slash (s : string) : posixChars "/" s = s.
Proof.
  induction s as [|c s IH]; [reflexivity|]. simpl. rewrite IH.
  destruct (Ascii.eqb c "/") eqn:E; [apply Ascii.eqb_eq in E; subst|]; reflexivity.
Qed.

(** X15: pathToPosixPath replaces each separator by [/], keeps the other
    characters and prefixes [./]; with [/] as separator it only prefixes
    [./]. *)
Theorem pathToPosixPath_maps_separators (sep : ascii) (value : string) :
  pathToPosixPath sep value = "./" ++ posixChars sep value
  /\ pathToPosixPath "/" value = "./" ++ value.
Proof.
  unfold pathToPosixPath. rewrite !join_split_posix, posixChars_slash. split; reflexivity.
Qed.

End Properties.

(** ** Concrete runs *)

(** C1: [{"exports": {".": "./missing.js"}}] with only [./index.js]
    shipped and no file on disk: the entry for [./missing.js] survives, is
    not shipped, and gets no npm-ignored diagnostic, because its existence
    check failed. *)
Lemma npm_ignored_skips_missing_file :
  match packageExportsState ["./index.js"] (fun _ => false) globStandIn codeUnitCompare
          pkgMissingFile with
  | Some st =>
      match exports st with
      | [e] =>
          filePath e = "./missing.js"
          /\ exists_ e = false
          /\ includes ["./index.js"] (filePath e) = false
          /\ countAt "npm-ignored" (jsonPath e) (messages st) = 0
          /\ countAt "exports-npm-ignored" (jsonPath e) (messages st) = 0
      | _ => False
      end
  | None => False
  end.
Proof. vm_compute. repeat split. Qed.

(** C4: in [{"node": {"node": "./a.js", "browser": null}}] the entry has
    conditions [node, node] and the negation [node, browser]: not the same
    set, yet [arrayEquivalent] (documented as checking that two sets hold
    the same values) accepts them, and the negation pass removes the
    entry. *)
Lemma negation_removes_non_equivalent_conditions :
  exists st e n,
    resolveExports ["./a.js"] (fun _ => true) globStandIn rootInfo
                   exportsRepeatedCondition (mkState [] [] []) = Some st
    /\ exports st = [e] /\ negatedExports st = [n]
    /\ conditions e = Some ["node"; "node"]
    /\ n_conditions n = Some ["node"; "browser"]
    /\ specifier e = n_specifier n
    /\ In "browser" ["node"; "browser"] /\ ~ In "browser" ["node"; "node"]
    /\ exists st', negationPass st = Some st' /\ exports st' = [].
Proof.
  destruct (resolveExports ["./a.js"] (fun _ => true) globStandIn rootInfo
                           exportsRepeatedCondition (mkState [] [] [])) as [st|] eqn:E;
    vm_compute in E; [|discriminate].
  injection E as <-.
  do 3 eexists. split; [reflexivity|].
  split; [reflexivity|]. split; [reflexivity|].
  split; [reflexivity|]. split; [reflexivity|]. split; [reflexivity|].
  split; [simpl; tauto|]. split; [simpl; intuition discriminate|].
  eexists. split; [vm_compute; reflexivity | reflexivity].
Qed.

(** C5: in [{"node-addons": {"browser": {"node": "./index.js"}}}] the
    key [node] meets the active conditions [node-addons] and [browser], each
    another member of a group holding [node]. The key gets two
    [exports-conditions-mutually-exclusive] diagnostics, one per group,
    naming [node-addons] and then [browser]: the [break] after a diagnostic
    leaves only the loop over the active conditions, not the loop over the
    groups. *)
Theorem mutually_exclusive_twice_in_context :
  match resolveExports ["./index.js"] (fun _ => true) globStandIn rootInfo
          exportsAddonsBrowserNode (mkState [] [] []) with
  | Some st =>
      map args (filter (fun m => String.eqb (ruleId m) "exports-conditions-mutually-exclusive"
                                 && path_eqb (place m)
                                      [SKey "exports"; SKey "node-addons"; SKey "browser";
                                       SKey "node"])
                       (messages st))
      = [["node"; "node-addons"]; ["node"; "browser"]]
      /\ countAt "exports-conditions-mutually-exclusive"
                 [SKey "exports"; SKey "node-addons"; SKey "browser"; SKey "node"]
                 (messages st) = 2
  | None => False
  end.
Proof. vm_compute. split; reflexivity. Qed.

(** C7: without an export map, [main: "index.js"] gives [.] with
    [pathOrder] [[0]] and the shipped [./index.js] gives [./index.js] with
    [pathOrder] [[]]: [[]] is a strict prefix of [[0]], yet [compareExport]
    sees a tie there and puts [.] (one segment) first; the order of the spec
    puts it second. *)
Lemma strict_prefix_not_first :
  match packageExportsState ["./index.js"] (fun _ => true) globStandIn codeUnitCompare
          pkgMainOnly with
  | Some st =>
      match exports st with
      | [e1; e2] =>
          jsonPathOrder e1 = [0] /\ jsonPathOrder e2 = []
          /\ specifier e1 = "." /\ specifier e2 = "./index.js"
          /\ (0 < specCompareExport codeUnitCompare e1 e2)%Z
      | _ => False
      end
  | None => False
  end.
Proof. vm_compute. repeat split. Qed.

(** A run of [final_exports_sorted_idempotent]. *)
Lemma final_exports_sorted_idempotent_witness :
  exists st,
    packageExportsState ["./index.js"] (fun _ => true) globStandIn codeUnitCompare
                        pkgMainOnly = Some st
    /\ localeConsistentOn codeUnitCompare (exports st) = true
    /\ Sorted (fun a b => (compareExport codeUnitCompare a b <= 0)%Z) (exports st)
    /\ sortExports codeUnitCompare (exports st) = exports st.
Proof.
  destruct (packageExportsState ["./index.js"] (fun _ => true) globStandIn codeUnitCompare
                                pkgMainOnly) as [st|] eqn:E.
  - assert (Hloc : localeConsistentOn codeUnitCompare (exports st) = true)
      by (vm_compute in E; injection E as <-; vm_compute; reflexivity).
    exists st. split; [reflexivity|]. split; [exact Hloc|].
    exact (final_exports_sorted_idempotent ["./index.js"] (fun _ => true) globStandIn
             codeUnitCompare pkgMainOnly st E Hloc).
  - vm_compute in E. discriminate.
Defined.

(** C2: [{"./*": "./index.js", ".foo": "./a.js"}] gives the entries
    [./*] (wildcard-useless: the specifier keeps its [*]) and [.foo]
    (neither [.] nor starting with [./]). *)
Lemma specifier_outside_dot_slash :
  match resolveExports ["./index.js"; "./a.js"] (fun _ => true) globStandIn rootInfo
          exportsLooseSpecifiers (mkState [] [] []) with
  | Some st =>
      map specifier (exports st) = ["./*"; ".foo"]
      /\ indexOf "./*" "*" 0 = Some 2
      /\ String.eqb ".foo" "." = false /\ startsWith ".foo" "./" = false
  | None => False
  end.
Proof. vm_compute. repeat split. Qed.

(** A run of [walk_entries_shape]. *)
Lemma walk_entries_shape_witness :
  exists st',
    resolveExports ["./index.js"; "./a.js"] (fun _ => true) globStandIn rootInfo
                   exportsLooseSpecifiers (mkState [] [] []) = Some st'
    /\ exists entries, exports st' = (exports (mkState [] [] []) ++ entries)%list
                       /\ Forall walkEntryOk entries.
Proof.
  destruct (resolveExports ["./index.js"; "./a.js"] (fun _ => true) globStandIn rootInfo
                           exportsLooseSpecifiers (mkState [] [] [])) as [st'|] eqn:E;
    [|vm_compute in E; discriminate].
  exists st'. split; [reflexivity|].
  exact (walk_entries_shape ["./index.js"; "./a.js"] (fun _ => true) globStandIn
           exportsLooseSpecifiers (mkState [] [] []) st' E).
Defined.

(** A run of [wildcard_round_trip]: [./*] to [./lib/*.js] over two shipped
    files. *)
Lemma wildcard_round_trip_witness :
  exists st' replacements,
    addDynamic ["./lib/a.js"; "./lib/b.js"] (fun _ => true) globStandIn rootInfo
               "./" "" ["./lib/"; ".js"] (mkState [] [] []) = Some st'
    /\ NoDup replacements
    /\ exports st'
       = (exports (mkState [] [] [])
          ++ map (fun r => mkRawExport None true (join r ["./lib/"; ".js"]) true
                             [SKey "exports"] [0] ("./" ++ r ++ ""))
                 replacements)%list.
Proof.
  assert (Hnd : NoDup ["./lib/a.js"; "./lib/b.js"]).
  { apply NoDup_cons; [simpl; intros [E|[]]; discriminate|].
    apply NoDup_cons; [intros []|constructor]. }
  destruct (addDynamic ["./lib/a.js"; "./lib/b.js"] (fun _ => true) globStandIn rootInfo
                       "./" "" ["./lib/"; ".js"] (mkState [] [] [])) as [st'|] eqn:E;
    [|vm_compute in E; discriminate].
  destruct (wildcard_round_trip ["./lib/a.js"; "./lib/b.js"] (fun _ => true) globStandIn
              rootInfo "./" "" ["./lib/"; ".js"] (mkState [] [] []) st' Hnd E)
    as (replacements & _ & _ & Hrnd & _ & _ & Hexp).
  exists st', replacements. split; [reflexivity|]. split; [exact Hrnd | exact Hexp].
Defined.

(** A run of [negation_removes_matching] on two condition lists without
    repeats. *)
Lemma negation_removes_matching_witness :
  arrayEquivalent ["import"; "node"] ["node"; "import"] = true
  /\ (forall x, In x ["import"; "node"] <-> In x ["node"; "import"]).
Proof.
  assert (Ha : NoDup ["import"; "node"]).
  { apply NoDup_cons; [simpl; intros [E|[]]; discriminate|].
    apply NoDup_cons; [intros []|constructor]. }
  assert (Hb : NoDup ["node"; "import"]).
  { apply NoDup_cons; [simpl; intros [E|[]]; discriminate|].
    apply NoDup_cons; [intros []|constructor]. }
  assert (Heq : arrayEquivalent ["import"; "node"] ["node"; "import"] = true)
    by (vm_compute; reflexivity).
  split; [exact Heq|].
  exact (proj1 (proj2 negation_removes_matching _ _ Ha Hb) Heq).
Defined.

(** Runs of [default_missing_unless_exhaustive]: [{"import", "require"}]
    gets no [exports-conditions-default-missing], [{"import"}] one. *)
Lemma default_missing_unless_exhaustive_witness :
  (exists st',
     resolveExportsConditions (resolveExports [] (fun _ => true) globStandIn) rootInfo
       [("import", JString "./a.mjs"); ("require", JString "./a.cjs")]
       (mkState [] [] []) = Some st'
     /\ countAt "exports-conditions-default-missing" (i_path rootInfo) (messages st') = 0)
  /\ (exists st',
     resolveExportsConditions (resolveExports [] (fun _ => true) globStandIn) rootInfo
       [("import", JString "./a.mjs")] (mkState [] [] []) = Some st'
     /\ countAt "exports-conditions-default-missing" (i_path rootInfo) (messages st') = 0 + 1).
Proof.
  split.
  - destruct (resolveExportsConditions (resolveExports [] (fun _ => true) globStandIn) rootInfo
                [("import", JString "./a.mjs"); ("require", JString "./a.cjs")]
                (mkState [] [] [])) as [st'|] eqn:E;
      [|vm_compute in E; discriminate].
    exists st'. split; [reflexivity|].
    apply (proj1 (proj2 (default_missing_unless_exhaustive [] (fun _ => true) globStandIn)
                    rootInfo [("import", JString "./a.mjs"); ("require", JString "./a.cjs")]
                    (mkState [] [] []) st'
                    ltac:(simpl; intros [Eq|[Eq|[]]]; discriminate Eq) E)).
    apply exhaustive_group_iff. vm_compute. reflexivity.
  - destruct (resolveExportsConditions (resolveExports [] (fun _ => true) globStandIn) rootInfo
                [("import", JString "./a.mjs")] (mkState [] [] [])) as [st'|] eqn:E;
      [|vm_compute in E; discriminate].
    exists st'. split; [reflexivity|].
    apply (proj2 (proj2 (default_missing_unless_exhaustive [] (fun _ => true) globStandIn)
                    rootInfo [("import", JString "./a.mjs")] (mkState [] [] []) st'
                    ltac:(simpl; intros [Eq|[]]; discriminate Eq) E)).
    intros Hex. apply (proj2 (exhaustive_group_iff _)) in Hex. vm_compute in Hex.
    discriminate Hex.
Defined.

(** A run of [types_verbose_iff_default_dts]: [default] [./a.js] and
    [types] [./a.d.ts]. *)
Lemma types_verbose_iff_default_dts_witness :
  exists st',
    resolveExportsConditions (resolveExports ["./a.js"; "./a.d.ts"] (fun _ => true) globStandIn)
      rootInfo [("types", JString "./a.d.ts"); ("default", JString "./a.js")]
      (mkState [] [] []) = Some st'
    /\ countAt "exports-types-verbose" (i_path rootInfo ++ [SKey "types"]) (messages st')
       = 0 + 1.
Proof.
  destruct (resolveExportsConditions
              (resolveExports ["./a.js"; "./a.d.ts"] (fun _ => true) globStandIn)
              rootInfo [("types", JString "./a.d.ts"); ("default", JString "./a.js")]
              (mkState [] [] [])) as [st'|] eqn:E;
    [|vm_compute in E; discriminate].
  exists st'. split; [reflexivity|].
  exact (types_verbose_iff_default_dts ["./a.js"; "./a.d.ts"] (fun _ => true) globStandIn
           rootInfo [("types", JString "./a.d.ts"); ("default", JString "./a.js")]
           "./a" "js" "ts" "./a.d.ts" (mkState [] [] []) st'
           eq_refl eq_refl (or_introl eq_refl) E).
Defined.

(** A run of [conditions_empty_last_key_rejects]: [{"import": "./a.js", "": null}]. *)
Lemma conditions_empty_last_key_rejects_witness :
  Forall (fun kv => startsWith (fst kv) "." = false) [("import", JString "./a.js")]
  /\ resolveExports ["./a.js"] (fun _ => true) globStandIn rootInfo
       (JObject ([("import", JString "./a.js")] ++ [("", JNull)])%list)
       (mkState [] [] []) = None.
Proof.
  split; [repeat constructor|].
  eapply conditions_empty_last_key_rejects. repeat constructor.
Defined.

(** A run of [without_exports_every_file_exported]: only [main], one shipped file. *)
Lemma without_exports_every_file_exported_witness :
  exists st,
    pj_exports pkgMainOnly = None
    /\ packageExportsState ["./index.js"] (fun _ => true) globStandIn codeUnitCompare
                           pkgMainOnly = Some st
    /\ (forall f, In f ["./index.js"] ->
          In (mkRawExport None true f true [] [] f) (exports st))
    /\ (forall e, In e (exports st) ->
          exists_ e = true /\ conditions e = None /\ In (filePath e) ["./index.js"]
          /\ (specifier e = "." \/ specifier e = filePath e)).
Proof.
  destruct (packageExportsState ["./index.js"] (fun _ => true) globStandIn codeUnitCompare
                                pkgMainOnly) as [st|] eqn:E;
    [|vm_compute in E; discriminate].
  exists st. split; [reflexivity|]. split; [reflexivity|].
  eapply without_exports_every_file_exported with (pj := pkgMainOnly); [reflexivity | exact E].
Defined.

(** A run of [without_exports_diagnostics]: only [main], one shipped file. *)
Lemma without_exports_diagnostics_witness :
  exists st,
    pj_exports pkgMainOnly = None
    /\ packageExportsState ["./index.js"] (fun _ => true) globStandIn codeUnitCompare
                           pkgMainOnly = Some st
    /\ Forall (fun m => In (ruleId m) (headerRules ++ mainRules)) (messages st).
Proof.
  destruct (packageExportsState ["./index.js"] (fun _ => true) globStandIn codeUnitCompare
                                pkgMainOnly) as [st|] eqn:E;
    [|vm_compute in E; discriminate].
  exists st. split; [reflexivity|]. split; [reflexivity|].
  eapply without_exports_diagnostics with (pj := pkgMainOnly); [reflexivity | exact E].
Defined.

(** A run of [exports_main_missing_iff_no_dot]: an export map with a missing file. *)
Lemma exports_main_missing_iff_no_dot_witness :
  exists st,
    pj_exports pkgMissingFile = Some (JObject [(".", JString "./missing.js")])
    /\ packageExportsState ["./index.js"] (fun _ => false) globStandIn codeUnitCompare
                           pkgMissingFile = Some st
    /\ countAt "exports-main-missing" [] (messages st)
       = if existsb (fun e => String.eqb (specifier e) ".") (exports st) then 0 else 1.
Proof.
  destruct (packageExportsState ["./index.js"] (fun _ => false) globStandIn codeUnitCompare
                                pkgMissingFile) as [st|] eqn:E;
    [|vm_compute in E; discriminate].
  exists st. split; [reflexivity|]. split; [reflexivity|].
  eapply exports_main_missing_iff_no_dot with (pj := pkgMissingFile); [reflexivity | exact E].
Defined.

(** A run of [exports_entries_under_exports]: an export map with a missing file. *)
Lemma exports_entries_under_exports_witness :
  exists st,
    pj_exports pkgMissingFile = Some (JObject [(".", JString "./missing.js")])
    /\ packageExportsState ["./index.js"] (fun _ => false) globStandIn codeUnitCompare
                           pkgMissingFile = Some st
    /\ forall e, In e (exports st) ->
         exists q q', jsonPath e = SKey "exports" :: q /\ jsonPathOrder e = 0 :: q'
                      /\ List.length q = List.length q'
                      /\ forall c, In c (optList (conditions e)) -> In (SKey c) q.
Proof.
  destruct (packageExportsState ["./index.js"] (fun _ => false) globStandIn codeUnitCompare
                                pkgMissingFile) as [st|] eqn:E;
    [|vm_compute in E; discriminate].
  exists st. split; [reflexivity|]. split; [reflexivity|].
  eapply exports_entries_under_exports with (pj := pkgMissingFile); [reflexivity | exact E].
Defined.

(** A run of [findWildcardReplacements_recovers]: parts [./] and [.js]. *)
Lemma findWildcardReplacements_recovers_witness :
  (".js" <> "" \/ ([] : list string) = [])
  /\ findWildcardReplacements ["./"; ".js"] (map (fun x => join x ["./"; ".js"]) ["a"; "b/c"])
     = Some ["a"; "b/c"].
Proof.
  split; [left; discriminate|].
  apply (findWildcardReplacements_recovers "./" ".js" [] ["a"; "b/c"]). left. discriminate.
Defined.

(** A run of [findWildcardReplacements_adjacent_asterisks]: the value [./**.js]. *)
Lemma findWildcardReplacements_adjacent_asterisks_witness :
  [".js"] <> []
  /\ Forall (fun x => x <> "") ["a"]
  /\ findWildcardReplacements ["./"; ""; ".js"] (map (fun x => join x ["./"; ""; ".js"]) ["a"])
     = Some [].
Proof.
  assert (Hx : Forall (fun x => x <> "") ["a"]) by (constructor; [discriminate | constructor]).
  split; [discriminate|]. split; [exact Hx|].
  apply (findWildcardReplacements_adjacent_asterisks "./" [".js"] ["a"]); [discriminate | exact Hx].
Defined.

(** A run of [walk_reports_each_missing_entry_once]: one missing file. *)
Lemma walk_reports_each_missing_entry_once_witness :
  exists st',
    resolveExports [] (fun _ => false) globStandIn rootInfo (JString "./missing.js")
                   (mkState [] [] []) = Some st'
    /\ exists ne, exports st' = (exports (mkState [] [] []) ++ ne)%list
                  /\ countRule "exports-path-not-found" (messages st')
                     = countRule "exports-path-not-found" (messages (mkState [] [] []))
                       + missingCount ne.
Proof.
  destruct (resolveExports [] (fun _ => false) globStandIn rootInfo (JString "./missing.js")
                           (mkState [] [] [])) as [st'|] eqn:E;
    [|vm_compute in E; discriminate].
  exists st'. split; [reflexivity|].
  eapply walk_reports_each_missing_entry_once. exact E.
Defined.

(** A run of [resolveMainField_prefix_optional]: [index.js] against [./index.js]. *)
Lemma resolveMainField_prefix_optional_witness :
  startsWith "index.js" "./" = false
  /\ match resolveMainField ["./index.js"] (Some (JString "index.js")) (Some (JString "module")),
           resolveMainField ["./index.js"] (Some (JString ("./" ++ "index.js")))
                            (Some (JString "module")) with
     | (d1, w1, f1), (d2, w2, f2) =>
         w1 = w2 /\ f1 = f2
         /\ exists rule values1 values2,
              d1 = message_ rule [SKey "main"] values1
              /\ d2 = message_ rule [SKey "main"] values2
     end.
Proof.
  split; [reflexivity|].
  apply (resolveMainField_prefix_optional ["./index.js"]). reflexivity.
Defined.
